(** * Data Races (Part I, Chapter 3, main.c)

    A shallow embedding of the two-thread shared counter of [main.c] and the
    properties of its interleavings.

    The C program is

      int shared_data = 0;
      void* thread_function(void* arg) { shared_data++; return NULL; }
      int main() {
        pthread_t t1, t2;
        pthread_create(&t1, NULL, thread_function, NULL);
        pthread_create(&t2, NULL, thread_function, NULL);
        pthread_join(t1, NULL);
        pthread_join(t2, NULL);
        printf("%d\n", shared_data);
        return 0;
      }

    The program is modelled as a labelled transition system: a state holds
    the global [shared_data], the thread table of the host, the locals [t1]
    and [t2] of [main], the program counter of [main] and the bytes written
    to standard output.  One step runs one atomic action of one thread, the
    scheduler choosing which.  [shared_data++] is two actions, a load and a
    store, so that the actions of the other thread may fall between them.

    What the model takes from outside the file:
    - memory is sequentially consistent at the grain of loads and stores;
    - [int] has 32 bits and wraps around;
    - [pthread_create] may fail, with [EAGAIN], and then starts no thread
      and leaves the handle as it was;
    - [pthread_join] waits for the thread to return; on a handle that a
      refused [pthread_create] has left unset it does not return;
    - [printf] does not fail. *)

From Stdlib Require Import ZArith Lia Ascii String DecimalString.
From stdpp Require Import base option list sets.
Open Scope Z_scope.

(** * The program *)

(** ** C data *)

Definition INT_MIN : Z := -2147483648.

Definition INT_MAX : Z := 2147483647.

(** Two's complement wrap-around of a 32-bit [int]. *)
Definition wrap_int (z : Z) : Z := (z + 2 ^ 31) mod 2 ^ 32 - 2 ^ 31.

(** [void*]: an address, [NULL] being address zero. *)
Definition pointer : Type := Z.

Definition NULL : pointer := 0.

(** The value stored by [x++] when [r] was loaded from [x]. *)
Definition incr_int (r : Z) : Z := wrap_int (r + 1).

(** Error numbers the host reports. *)
Definition EAGAIN : Z := 11.

Definition ESRCH : Z := 3.

(** ** thread_function *)

(** [thread_function] run without interruption, as a function of its
    argument and of the contents of [shared_data]: the result value and the
    new contents of [shared_data]. *)
Definition thread_function (arg : pointer) (shared_data : Z) : pointer * Z :=
  let r := shared_data in
  let shared_data := incr_int r in
  (NULL, shared_data).

(** The same body cut into its atomic actions.  A worker is at its entry
    (about to load [shared_data]), holds the loaded value in a register
    (about to store its successor), has stored (about to return), or has
    returned. *)
Inductive wpc : Type :=
| W_entry
| W_loaded (r : Z)
| W_stored
| W_exited (ret : pointer).

Record worker : Type := { w_arg : pointer; w_pc : wpc }.

Inductive wevent : Type :=
| Load (v : Z)
| Store (v : Z)
| Exit (ret : pointer).

(** One atomic action of a worker on the contents [cell] of [shared_data]:
    the event, the worker afterwards and the new contents; [None] once the
    worker has returned. *)
Definition worker_step (w : worker) (cell : Z)
    : option (wevent * worker * Z) :=
  match w_pc w with
  | W_entry =>
      Some (Load cell, {| w_arg := w_arg w; w_pc := W_loaded cell |}, cell)
  | W_loaded r =>
      Some (Store (incr_int r), {| w_arg := w_arg w; w_pc := W_stored |},
            incr_int r)
  | W_stored =>
      Some (Exit NULL, {| w_arg := w_arg w; w_pc := W_exited NULL |}, cell)
  | W_exited _ => None
  end.

Definition exited (w : worker) : bool :=
  match w_pc w with W_exited _ => true | _ => false end.

(** ** The host: threads and standard output *)

(** [pthread_create(&t, NULL, thread_function, arg)] on the thread table
    [tbl].  The host either starts a thread at the entry of
    [thread_function] and hands out its identifier (its index in the table),
    returning 0, or refuses with [EAGAIN] and starts nothing; in that case
    the handle variable keeps its old contents [t]. *)
Definition pthread_create (host_ok : bool) (t : option nat) (arg : pointer)
    (tbl : list worker) : Z * option nat * list worker :=
  if host_ok
  then (0, Some (length tbl), tbl ++ [{| w_arg := arg; w_pc := W_entry |}])
  else (EAGAIN, t, tbl).

(** [pthread_join(t, NULL)]: [None] while the call blocks, otherwise the
    result of the call.  The call blocks as long as the thread has not
    returned.  An identifier that names no thread of the table is answered
    with [ESRCH].  A handle variable that no [pthread_create] has set holds
    no identifier but whatever was in memory; to join it is undefined, and
    in the model the call does not return. *)
Definition pthread_join (t : option nat) (tbl : list worker) : option Z :=
  match t with
  | None => None
  | Some i =>
      match tbl !! i with
      | None => Some ESRCH
      | Some w => if exited w then Some 0 else None
      end
  end.

(** The line terminator, one byte. *)
Definition newline : string := String "010"%char EmptyString.

(** [printf("%d\n", v)]: the bytes written, the decimal digits of [v]
    (after a minus sign when [v] is negative) and a newline. *)
Definition printf_d_nl (v : Z) : string :=
  (NilZero.string_of_int (Z.to_int v) ++ newline)%string.

(** ** main *)

(** Where [main] is: before each of its four calls to the host, before
    the read of [shared_data] that is the argument of [printf], before the
    call of [printf] with the value read, before [return 0], and after it,
    with the exit status. *)
Inductive mpc : Type :=
| M_create1
| M_create2
| M_join1
| M_join2
| M_read
| M_printf (v : Z)
| M_return
| M_exited (status : Z).

Record state : Type := {
  shared_data : Z;
  threads : list worker;
  t1 : option nat;
  t2 : option nat;
  pc : mpc;
  stdout : string
}.

(** The state at program start: [int shared_data = 0], no thread but
    [main], [t1] and [t2] not yet set, nothing written. *)
Definition init : state :=
  {| shared_data := 0; threads := []; t1 := None; t2 := None;
     pc := M_create1; stdout := EmptyString |}.

(** The two handle variables of [main]. *)
Inductive hvar : Type := T1 | T2.

(** What a step does: a call of [main] to the host with the value it
    returns, the read of [shared_data] by [main] with the value read, the
    [printf] with the value printed, the return of [main] with the exit
    status, or an action of thread [i]. *)
Inductive event : Type :=
| Ev_create (h : hvar) (rc : Z)
| Ev_join (h : hvar) (rc : Z)
| Ev_read (v : Z)
| Ev_printf (v : Z)
| Ev_return (status : Z)
| Ev_worker (i : nat) (e : wevent).

(** One action of [main].  [host_ok] is the host's answer to a
    [pthread_create]; the values that [pthread_create] and [pthread_join]
    return show in the event only, [main] does not keep them.  A
    [pthread_join] that blocks leaves [main] without an action. *)
Definition main_step (host_ok : bool) (s : state) : option (event * state) :=
  match pc s with
  | M_create1 =>
      let '(rc, h, tbl) := pthread_create host_ok (t1 s) NULL (threads s) in
      Some (Ev_create T1 rc,
            {| shared_data := shared_data s; threads := tbl; t1 := h;
               t2 := t2 s; pc := M_create2; stdout := stdout s |})
  | M_create2 =>
      let '(rc, h, tbl) := pthread_create host_ok (t2 s) NULL (threads s) in
      Some (Ev_create T2 rc,
            {| shared_data := shared_data s; threads := tbl; t1 := t1 s;
               t2 := h; pc := M_join1; stdout := stdout s |})
  | M_join1 =>
      match pthread_join (t1 s) (threads s) with
      | Some rc =>
          Some (Ev_join T1 rc,
                {| shared_data := shared_data s; threads := threads s;
                   t1 := t1 s; t2 := t2 s; pc := M_join2;
                   stdout := stdout s |})
      | None => None
      end
  | M_join2 =>
      match pthread_join (t2 s) (threads s) with
      | Some rc =>
          Some (Ev_join T2 rc,
                {| shared_data := shared_data s; threads := threads s;
                   t1 := t1 s; t2 := t2 s; pc := M_read;
                   stdout := stdout s |})
      | None => None
      end
  | M_read =>
      Some (Ev_read (shared_data s),
            {| shared_data := shared_data s; threads := threads s;
               t1 := t1 s; t2 := t2 s; pc := M_printf (shared_data s);
               stdout := stdout s |})
  | M_printf v =>
      Some (Ev_printf v,
            {| shared_data := shared_data s; threads := threads s;
               t1 := t1 s; t2 := t2 s; pc := M_return;
               stdout := (stdout s ++ printf_d_nl v)%string |})
  | M_return =>
      Some (Ev_return 0,
            {| shared_data := shared_data s; threads := threads s;
               t1 := t1 s; t2 := t2 s; pc := M_exited 0;
               stdout := stdout s |})
  | M_exited _ => None
  end.

(** One action of thread [i] of the table.  Once [main] has returned the
    process is gone and no thread runs. *)
Definition thread_step (i : nat) (s : state) : option (event * state) :=
  match pc s with
  | M_exited _ => None
  | _ =>
      match threads s !! i with
      | None => None
      | Some w =>
          match worker_step w (shared_data s) with
          | None => None
          | Some (e, w', cell) =>
              Some (Ev_worker i e,
                    {| shared_data := cell; threads := <[i := w']> (threads s);
                       t1 := t1 s; t2 := t2 s; pc := pc s;
                       stdout := stdout s |})
          end
      end
  end.

(** ** Interleavings *)

(** What the scheduler and the host decide at one step: [main] runs, [main]
    runs a [pthread_create] that the host refuses, or thread [i] runs. *)
Inductive choice : Type :=
| Run_main
| Run_main_refused
| Run_thread (i : nat).

Definition step_fn (c : choice) (s : state) : option (event * state) :=
  match c with
  | Run_main => main_step true s
  | Run_main_refused =>
      match pc s with
      | M_create1 | M_create2 => main_step false s
      | _ => None
      end
  | Run_thread i => thread_step i s
  end.

(** A run under a schedule: the events in order and the state reached, or
    [None] when the schedule picks an action that is not enabled. *)
Fixpoint run (sched : list choice) (s : state) : option (list event * state) :=
  match sched with
  | [] => Some ([], s)
  | c :: sched' =>
      match step_fn c s with
      | None => None
      | Some (e, s') =>
          match run sched' s' with
          | None => None
          | Some (tr, s'') => Some (e :: tr, s'')
          end
      end
  end.

(** ** Reachable states *)

(** [reachable tr s]: some schedule takes the program from [init] to [s]
    with the events [tr]. *)
Definition reachable (tr : list event) (s : state) : Prop :=
  exists sched, run sched init = Some (tr, s).

(** ** What the invariants are stated with *)

(** The position of [main]: how many of its seven actions are done. *)
Definition stage (p : mpc) : nat :=
  match p with
  | M_create1 => 0
  | M_create2 => 1
  | M_join1 => 2
  | M_join2 => 3
  | M_read => 4
  | M_printf _ => 5
  | M_return => 6
  | M_exited _ => 7
  end.

Definition started (h : option nat) : nat :=
  match h with Some _ => 1 | None => 0 end.

(** The table holds exactly the threads that [t1] and [t2] name: the first
    thread created has identifier 0, the second the next free one. *)
Record handles_ok (s : state) : Prop := {
  hk_length : length (threads s) = (started (t1 s) + started (t2 s))%nat;
  hk_t1 : t1 s = None \/ t1 s = Some 0%nat;
  hk_t2 : t2 s = None \/ t2 s = Some (started (t1 s));
  hk_stage0 : stage (pc s) = 0%nat -> t1 s = None;
  hk_stage1 : (stage (pc s) <= 1)%nat -> t2 s = None
}.

(** A worker that has done its store. *)
Definition stored (w : worker) : bool :=
  match w_pc w with
  | W_stored | W_exited _ => true
  | W_entry | W_loaded _ => false
  end.

Fixpoint nstored (tbl : list worker) : nat :=
  match tbl with
  | [] => 0
  | w :: tbl' => ((if stored w then 1 else 0) + nstored tbl')%nat
  end.

(** [shared_data] never exceeds the number of stores done, is at least 1
    once a store is done, and so is every value a worker holds in its
    register. *)
Record cell_ok (s : state) : Prop := {
  ck_lower : 0 <= shared_data s;
  ck_upper : shared_data s <= Z.of_nat (nstored (threads s));
  ck_stored : (0 < nstored (threads s))%nat -> 1 <= shared_data s;
  ck_regs : forall i w r,
      threads s !! i = Some w -> w_pc w = W_loaded r ->
      0 <= r <= Z.of_nat (nstored (threads s))
}.

(** The thread that the handle [h] names, if any, has returned. *)
Definition has_exited (tbl : list worker) (h : option nat) : Prop :=
  forall i, h = Some i -> exists w, tbl !! i = Some w /\ exited w = true.

Record joins_ok (s : state) : Prop := {
  jk_t1 : (3 <= stage (pc s))%nat -> has_exited (threads s) (t1 s);
  jk_t2 : (4 <= stage (pc s))%nat -> has_exited (threads s) (t2 s)
}.

(** A handle that is set names a thread of the table. *)
Definition valid_handle (tbl : list worker) (h : option nat) : Prop :=
  forall i, h = Some i -> is_Some (tbl !! i).

Definition is_main_event (e : event) : bool :=
  match e with Ev_worker _ _ => false | _ => true end.

(** The events of [main] in a trace, in order. *)
Definition main_events (tr : list event) : list event :=
  List.filter is_main_event tr.

Definition create_rc (h : option nat) : Z :=
  match h with Some _ => 0 | None => EAGAIN end.

Definition join_rc (h : option nat) : Z :=
  match h with Some _ => 0 | None => ESRCH end.

(** The seven actions of [main] in program order, with the results that
    the state [s] records for them. *)
Definition main_actions (s : state) : list event :=
  [Ev_create T1 (create_rc (t1 s)); Ev_create T2 (create_rc (t2 s));
   Ev_join T1 (join_rc (t1 s)); Ev_join T2 (join_rc (t2 s));
   Ev_read (shared_data s); Ev_printf (shared_data s); Ev_return 0].

Definition main_history (s : state) : list event :=
  take (stage (pc s)) (main_actions s).

Record report_ok (tr : list event) (s : state) : Prop := {
  rk_events : main_events tr = main_history s;
  rk_printf : forall v, pc s = M_printf v -> v = shared_data s;
  rk_status : forall st, pc s = M_exited st -> st = 0;
  rk_stdout :
    stdout s =
    if (stage (pc s) <? 6)%nat then EmptyString
    else printf_d_nl (shared_data s)
}.

(** The actions of thread [i] in a trace, in order. *)
Definition thread_events (i : nat) (tr : list event) : list wevent :=
  omap (fun e => match e with
                 | Ev_worker j we => if decide (i = j) then Some we else None
                 | _ => None
                 end) tr.

(** The actions a thread of the table has done, read off its program
    counter; [r] stands for the value it loaded. *)
Definition thread_history (ow : option worker) (r : Z) : list wevent :=
  match ow with
  | None => []
  | Some w =>
      match w_pc w with
      | W_entry => []
      | W_loaded r' => [Load r']
      | W_stored => [Load r; Store (incr_int r)]
      | W_exited ret => [Load r; Store (incr_int r); Exit ret]
      end
  end.

(** What an event of [main] in the trace tells about the state reached:
    how far [main] is at least, and the value the event carries. *)
Definition event_fact (s : state) (e : event) : Prop :=
  match e with
  | Ev_create T1 rc => (1 <= stage (pc s))%nat /\ rc = create_rc (t1 s)
  | Ev_create T2 rc => (2 <= stage (pc s))%nat /\ rc = create_rc (t2 s)
  | Ev_join T1 rc => (3 <= stage (pc s))%nat /\ rc = join_rc (t1 s)
  | Ev_join T2 rc => (4 <= stage (pc s))%nat /\ rc = join_rc (t2 s)
  | Ev_read v => (5 <= stage (pc s))%nat /\ v = shared_data s
  | Ev_printf v => (6 <= stage (pc s))%nat /\ v = shared_data s
  | Ev_return st => (7 <= stage (pc s))%nat /\ st = 0
  | Ev_worker _ _ => True
  end.

(** The actions a worker still has to do. *)
Definition todo (w : worker) : nat :=
  match w_pc w with
  | W_entry => 3
  | W_loaded _ => 2
  | W_stored => 1
  | W_exited _ => 0
  end.

Fixpoint threads_todo (tbl : list worker) : nat :=
  match tbl with
  | [] => 0
  | w :: tbl' => (todo w + threads_todo tbl')%nat
  end.

(** An upper bound on the number of steps left: the actions of [main], those
    of the threads of the table, and three for each [pthread_create] still
    to come. *)
Definition remaining (s : state) : nat :=
  ((7 - stage (pc s)) + 3 * (2 - stage (pc s)) + threads_todo (threads s))%nat.

(** ** The runs the properties speak of *)

#[global] Instance hvar_eq_dec : EqDecision hvar.
Proof. solve_decision. Defined.

#[global] Instance wevent_eq_dec : EqDecision wevent.
Proof. solve_decision. Defined.

#[global] Instance event_eq_dec : EqDecision event.
Proof. solve_decision. Defined.

(** A run in which both workers were spawned and both were joined. *)
Definition normal_run (tr : list event) : Prop :=
  (Ev_create T1 0 ∈ tr /\ Ev_create T2 0 ∈ tr) /\
  (Ev_join T1 0 ∈ tr /\ Ev_join T2 0 ∈ tr).

(** A run in which some [pthread_create] or [pthread_join] reported an
    error. *)
Definition failed_run (tr : list event) : Prop :=
  exists h rc, rc <> 0 /\ (Ev_create h rc ∈ tr \/ Ev_join h rc ∈ tr).


(** No spawn has been refused so far: the handles of the spawns done are
    set. *)
Definition unrefused (s : state) : Prop :=
  ((1 <= stage (pc s))%nat -> is_Some (t1 s)) /\
  ((2 <= stage (pc s))%nat -> is_Some (t2 s)).

(** The place of an event of [main] in the program order of [main]. *)
Definition action_index (e : event) : option nat :=
  match e with
  | Ev_create T1 _ => Some 0%nat
  | Ev_create T2 _ => Some 1%nat
  | Ev_join T1 _ => Some 2%nat
  | Ev_join T2 _ => Some 3%nat
  | Ev_read _ => Some 4%nat
  | Ev_printf _ => Some 5%nat
  | Ev_return _ => Some 6%nat
  | Ev_worker _ _ => None
  end.

(** [n] uninterrupted actions of a worker. *)
Fixpoint worker_run (n : nat) (w : worker) (cell : Z) : worker * Z :=
  match n with
  | O => (w, cell)
  | S n' =>
      match worker_step w cell with
      | Some (_, w', cell') => worker_run n' w' cell'
      | None => (w, cell)
      end
  end.

(** ** Schedules, traces and states of particular runs *)

(** The two schedules of the demonstration.  In [serial] the first thread
    finishes before the second starts; in [lost_update] both threads load
    before either stores. *)
Definition serial : list choice :=
  [Run_main; Run_main;
   Run_thread 0; Run_thread 0; Run_thread 0;
   Run_thread 1; Run_thread 1; Run_thread 1;
   Run_main; Run_main; Run_main; Run_main; Run_main]%nat.

Definition lost_update : list choice :=
  [Run_main; Run_main;
   Run_thread 0; Run_thread 1; Run_thread 0; Run_thread 1;
   Run_thread 0; Run_thread 1;
   Run_main; Run_main; Run_main; Run_main; Run_main]%nat.

Definition serial_trace : list event :=
  [Ev_create T1 0; Ev_create T2 0;
   Ev_worker 0 (Load 0); Ev_worker 0 (Store 1); Ev_worker 0 (Exit NULL);
   Ev_worker 1 (Load 1); Ev_worker 1 (Store 2); Ev_worker 1 (Exit NULL);
   Ev_join T1 0; Ev_join T2 0; Ev_read 2; Ev_printf 2; Ev_return 0].

Definition lost_update_trace : list event :=
  [Ev_create T1 0; Ev_create T2 0;
   Ev_worker 0 (Load 0); Ev_worker 1 (Load 0);
   Ev_worker 0 (Store 1); Ev_worker 1 (Store 1);
   Ev_worker 0 (Exit NULL); Ev_worker 1 (Exit NULL);
   Ev_join T1 0; Ev_join T2 0; Ev_read 1; Ev_printf 1; Ev_return 0].

Definition returned : worker := {| w_arg := NULL; w_pc := W_exited NULL |}.

(** The state after both threads have returned and [main] has printed [v]
    and returned. *)
Definition final (v : Z) : state :=
  {| shared_data := v; threads := [returned; returned];
     t1 := Some 0%nat; t2 := Some 1%nat; pc := M_exited 0;
     stdout := printf_d_nl v |}.




(** The state in which both threads have loaded 0, and the state after the
    first has stored. *)
Definition both_loaded : state :=
  {| shared_data := 0;
     threads := [{| w_arg := NULL; w_pc := W_loaded 0 |};
                 {| w_arg := NULL; w_pc := W_loaded 0 |}];
     t1 := Some 0%nat; t2 := Some 1%nat; pc := M_join1;
     stdout := EmptyString |}.

Definition first_stored : state :=
  {| shared_data := 1;
     threads := [{| w_arg := NULL; w_pc := W_stored |};
                 {| w_arg := NULL; w_pc := W_loaded 0 |}];
     t1 := Some 0%nat; t2 := Some 1%nat; pc := M_join1;
     stdout := EmptyString |}.

(** ** The Driver with any number of Workers *)

(** Modelled from the spec: the Driver with [n] Workers in place of two,
    which the spec's controls speak of (one Worker, no Worker); [main.c]
    has the Driver for two Workers only.  As the spec has it the Driver
    starts from Shared Cell = 0, spawns its Workers, joins them in the
    order spawned, reads the Cell and emits its value and a line
    terminator, and returns success.  The Worker is [thread_function], cut
    in atomic actions as above; no spawn is refused; the [k]-th thread
    spawned has the identifier [k].  With [n = 2] this is [main]. *)
Inductive dpc : Type :=
| D_spawn (k : nat)
| D_join (k : nat)
| D_read
| D_printf (v : Z)
| D_return
| D_exited (status : Z).

(** Modelled from the spec: the state of the Driver with [n] Workers,
    which is the state of [main] without the two handle variables. *)
Record dstate : Type := {
  d_shared_data : Z;
  d_threads : list worker;
  d_pc : dpc;
  d_stdout : string
}.

(** Where the Driver goes on when [k] joins are done, and when [k] spawns
    are done. *)
Definition join_or_next (n k : nat) : dpc :=
  if (k <? n)%nat then D_join k else D_read.

Definition spawn_or_next (n k : nat) : dpc :=
  if (k <? n)%nat then D_spawn k else join_or_next n 0.

(** Modelled from the spec: the Driver starts with Shared Cell = 0, no
    Worker and nothing emitted. *)
Definition driver_init (n : nat) : dstate :=
  {| d_shared_data := 0; d_threads := []; d_pc := spawn_or_next n 0;
     d_stdout := EmptyString |}.

(** Modelled from the spec: one action of the Driver, in the order of its
    contract: the spawns, the joins, the read of the Cell, the emission,
    the return of success.  The actions are those of [main_step]. *)
Definition driver_main_step (n : nat) (s : dstate) : option dstate :=
  match d_pc s with
  | D_spawn k =>
      let '(_, _, tbl) := pthread_create true None NULL (d_threads s) in
      Some {| d_shared_data := d_shared_data s; d_threads := tbl;
              d_pc := spawn_or_next n (S k); d_stdout := d_stdout s |}
  | D_join k =>
      match pthread_join (Some k) (d_threads s) with
      | Some _ =>
          Some {| d_shared_data := d_shared_data s;
                  d_threads := d_threads s;
                  d_pc := join_or_next n (S k); d_stdout := d_stdout s |}
      | None => None
      end
  | D_read =>
      Some {| d_shared_data := d_shared_data s; d_threads := d_threads s;
              d_pc := D_printf (d_shared_data s); d_stdout := d_stdout s |}
  | D_printf v =>
      Some {| d_shared_data := d_shared_data s; d_threads := d_threads s;
              d_pc := D_return;
              d_stdout := (d_stdout s ++ printf_d_nl v)%string |}
  | D_return =>
      Some {| d_shared_data := d_shared_data s; d_threads := d_threads s;
              d_pc := D_exited 0; d_stdout := d_stdout s |}
  | D_exited _ => None
  end.

(** Modelled from the spec: one action of Worker [i], which is
    [worker_step] as in [thread_step]. *)
Definition driver_thread_step (i : nat) (s : dstate) : option dstate :=
  match d_pc s with
  | D_exited _ => None
  | _ =>
      match d_threads s !! i with
      | None => None
      | Some w =>
          match worker_step w (d_shared_data s) with
          | None => None
          | Some (_, w', cell) =>
              Some {| d_shared_data := cell;
                      d_threads := <[i := w']> (d_threads s);
                      d_pc := d_pc s; d_stdout := d_stdout s |}
          end
      end
  end.

(** Modelled from the spec: a step and a run of the Driver with [n]
    Workers under a schedule; the host refuses no spawn. *)
Definition driver_step (n : nat) (c : choice) (s : dstate) : option dstate :=
  match c with
  | Run_main => driver_main_step n s
  | Run_main_refused => None
  | Run_thread i => driver_thread_step i s
  end.

Fixpoint driver_run (n : nat) (sched : list choice) (s : dstate)
    : option dstate :=
  match sched with
  | [] => Some s
  | c :: sched' =>
      match driver_step n c s with
      | None => None
      | Some s' => driver_run n sched' s'
      end
  end.

(** The state of [main] that a state of the Driver with two Workers stands
    for. *)
Definition main_state (s : dstate) : state :=
  {| shared_data := d_shared_data s;
     threads := d_threads s;
     t1 := match d_pc s with D_spawn 0 => None | _ => Some 0%nat end;
     t2 := match d_pc s with D_spawn _ => None | _ => Some 1%nat end;
     pc := match d_pc s with
           | D_spawn 0 => M_create1
           | D_spawn (S _) => M_create2
           | D_join 0 => M_join1
           | D_join (S _) => M_join2
           | D_read => M_read
           | D_printf v => M_printf v
           | D_return => M_return
           | D_exited st => M_exited st
           end;
     stdout := d_stdout s |}.

(** The table and the Cell: the Cell never exceeds the number of stores
    done, is at least 1 once a store is done, and so is every value a
    Worker holds in its register. *)
Definition table_ok (cell : Z) (tbl : list worker) : Prop :=
  0 <= cell <= Z.of_nat (nstored tbl) /\
  ((0 < nstored tbl)%nat -> 1 <= cell) /\
  (forall i w r, tbl !! i = Some w -> w_pc w = W_loaded r ->
                 0 <= r <= Z.of_nat (nstored tbl)).

(** The threads with identifiers below [k] have returned. *)
Definition exited_below (k : nat) (tbl : list worker) : Prop :=
  forall i w, (i < k)%nat -> tbl !! i = Some w -> exited w = true.

(** What the Driver with [n] Workers keeps. *)
Record driver_ok (n : nat) (s : dstate) : Prop := {
  dk_table : table_ok (d_shared_data s) (d_threads s);
  dk_pc :
    match d_pc s with
    | D_spawn k => length (d_threads s) = k /\ (k < n)%nat
    | D_join k =>
        length (d_threads s) = n /\ (k < n)%nat /\
        exited_below k (d_threads s)
    | _ => length (d_threads s) = n /\ exited_below n (d_threads s)
    end;
  dk_printf : forall v, d_pc s = D_printf v -> v = d_shared_data s;
  dk_stdout :
    d_stdout s =
    match d_pc s with
    | D_return | D_exited _ => printf_d_nl (d_shared_data s)
    | _ => EmptyString
    end;
  dk_status : forall st, d_pc s = D_exited st -> st = 0
}.

(** The steps the Driver with [n] Workers has left, at most. *)
Definition driver_remaining (n : nat) (s : dstate) : nat :=
  (match d_pc s with
   | D_spawn k => 4 * (n - k) + n + 3
   | D_join k => (n - k) + 3
   | D_read => 3
   | D_printf _ => 2
   | D_return => 1
   | D_exited _ => 0
   end + threads_todo (d_threads s))%nat.

(** ** What the further properties are stated with *)

(** The contents of a handle variable of [main]. *)
Definition handle (h : hvar) (s : state) : option nat :=
  match h with T1 => t1 s | T2 => t2 s end.

(** Calls of [thread_function] one after the other, each returning before
    the next starts, with the arguments [args]: the contents of
    [shared_data] afterwards. *)
Definition sequential_calls (args : list pointer) (cell : Z) : Z :=
  fold_left (fun c arg => snd (thread_function arg c)) args cell.

(** Some thread has loaded 1 from [shared_data], that is, has loaded after
    a store. *)
Definition loaded_one (tr : list event) : Prop :=
  exists i, Ev_worker i (Load 1) ∈ tr.

(** What a thread that has loaded 1 has seen and will do: the other thread
    has stored, and the thread itself either still holds the 1, with
    [shared_data] at 1, or has stored 2. *)
Definition loaded_one_ok (s : state) (i : nat) : Prop :=
  exists w,
    threads s !! i = Some w /\
    ((w_pc w = W_loaded 1 /\ shared_data s = 1) \/
     (stored w = true /\ shared_data s = 2)) /\
    length (threads s) = 2%nat /\
    (forall j w', j <> i -> threads s !! j = Some w' -> stored w' = true).

(** The schedule up to the point where both threads have loaded and none
    has stored, and its trace. *)
Definition to_both_loaded : list choice :=
  [Run_main; Run_main; Run_thread 0; Run_thread 1]%nat.

Definition to_both_loaded_trace : list event :=
  [Ev_create T1 0; Ev_create T2 0;
   Ev_worker 0 (Load 0); Ev_worker 1 (Load 0)].

(** * Proofs *)

(** ** Runs *)

Lemma run_snoc sched c s :
  run (sched ++ [c]) s =
  match run sched s with
  | None => None
  | Some (tr, s') =>
      match step_fn c s' with
      | None => None
      | Some (e, s'') => Some (tr ++ [e], s'')
      end
  end.
Proof.
  revert s; induction sched as [|c0 sched IH]; intros s; simpl.
  - destruct (step_fn c s) as [[e s']|]; reflexivity.
  - destruct (step_fn c0 s) as [[e0 s0]|]; [|reflexivity].
    rewrite IH. destruct (run sched s0) as [[tr s']|]; [|reflexivity].
    destruct (step_fn c s') as [[e s'']|]; reflexivity.
Qed.

Lemma run_app sched1 sched2 s tr1 s1 tr2 s2 :
  run sched1 s = Some (tr1, s1) -> run sched2 s1 = Some (tr2, s2) ->
  run (sched1 ++ sched2) s = Some (tr1 ++ tr2, s2).
Proof.
  revert s tr1. induction sched1 as [|c sched1 IH]; intros s tr1 H1 H2;
    simpl in *.
  - injection H1 as <- <-. exact H2.
  - destruct (step_fn c s) as [[e s0]|]; [|discriminate].
    destruct (run sched1 s0) as [[tr0 s0']|] eqn:E; [|discriminate].
    injection H1 as <- <-. rewrite (IH _ _ E H2). reflexivity.
Qed.

Lemma reachable_init : reachable [] init.
Proof. exists []. reflexivity. Qed.

Lemma reachable_step tr s c e s' :
  reachable tr s -> step_fn c s = Some (e, s') -> reachable (tr ++ [e]) s'.
Proof.
  intros [sched Hrun] Hstep. exists (sched ++ [c]).
  rewrite run_snoc, Hrun, Hstep. reflexivity.
Qed.

(** Induction over the runs from [init], last step first. *)
Lemma reachable_invariant (P : list event -> state -> Prop) :
  P [] init ->
  (forall tr s c e s',
      reachable tr s -> P tr s -> step_fn c s = Some (e, s') ->
      P (tr ++ [e]) s') ->
  forall tr s, reachable tr s -> P tr s.
Proof.
  intros H0 Hs tr s [sched Hrun]. revert tr s Hrun.
  induction sched as [|c sched IH] using rev_ind; intros tr s Hrun.
  - simpl in Hrun. injection Hrun as <- <-. exact H0.
  - rewrite run_snoc in Hrun.
    destruct (run sched init) as [[tr0 s0]|] eqn:E; [|discriminate].
    destruct (step_fn c s0) as [[e s']|] eqn:Es; [|discriminate].
    injection Hrun as <- <-. eapply Hs; eauto. exists sched; exact E.
Qed.

(** ** Inversion of steps *)

Lemma worker_step_inv w cell e w' cell' :
  worker_step w cell = Some (e, w', cell') ->
  (w_pc w = W_entry /\ e = Load cell /\ w_pc w' = W_loaded cell /\ cell' = cell) \/
  (exists r, w_pc w = W_loaded r /\ e = Store (incr_int r) /\
             w_pc w' = W_stored /\ cell' = incr_int r) \/
  (w_pc w = W_stored /\ e = Exit NULL /\ w_pc w' = W_exited NULL /\ cell' = cell).
Proof.
  unfold worker_step. destruct (w_pc w) as [|r| |ret]; intros H;
    try discriminate; injection H as <- <- <-; simpl; eauto 10.
Qed.

Lemma thread_step_inv i s e s' :
  thread_step i s = Some (e, s') ->
  exists w we w' cell,
    threads s !! i = Some w /\
    worker_step w (shared_data s) = Some (we, w', cell) /\
    e = Ev_worker i we /\
    s' = {| shared_data := cell; threads := <[i := w']> (threads s);
            t1 := t1 s; t2 := t2 s; pc := pc s; stdout := stdout s |} /\
    (stage (pc s) < 7)%nat.
Proof.
  unfold thread_step. intros H.
  assert (Hpc : (stage (pc s) < 7)%nat).
  { destruct (pc s); simpl; try lia; discriminate. }
  assert (H' : match threads s !! i with
               | Some w =>
                   match worker_step w (shared_data s) with
                   | Some (e, w', cell) =>
                       Some (Ev_worker i e,
                             {| shared_data := cell;
                                threads := <[i := w']> (threads s);
                                t1 := t1 s; t2 := t2 s; pc := pc s;
                                stdout := stdout s |})
                   | None => None
                   end
               | None => None
               end = Some (e, s')).
  { destruct (pc s); try exact H; discriminate. }
  clear H. destruct (threads s !! i) as [w|]; [|discriminate].
  destruct (worker_step w (shared_data s)) as [[[we w'] cell]|] eqn:Ew;
    [|discriminate].
  injection H' as <- <-. exists w, we, w', cell. auto.
Qed.

Lemma step_fn_cases c s e s' :
  step_fn c s = Some (e, s') ->
  (exists ok, main_step ok s = Some (e, s')) \/
  (exists i, thread_step i s = Some (e, s')).
Proof.
  destruct c as [| |i]; simpl; intros H; eauto.
  destruct (pc s); try discriminate; eauto.
Qed.

Ltac invert_main_step H :=
  unfold main_step, pthread_create in H;
  repeat match type of H with
         | context [match ?x with _ => _ end] => destruct x eqn:?
         end;
  try discriminate; injection H as <- <-.

Ltac invert_step H :=
  match type of H with
  | step_fn ?c _ = Some _ =>
      destruct c as [| |?i]; unfold step_fn in H;
      [ invert_main_step H | invert_main_step H
      | apply thread_step_inv in H;
        destruct H as (?w & ?we & ?w' & ?cell & ?Hlk & ?Hws & -> & -> & ?Hst) ]
  end.

(** ** Invariant: the handles and the thread table *)

Lemma reachable_handles tr s : reachable tr s -> handles_ok s.
Proof.
  revert tr s. apply reachable_invariant.
  - split; simpl; auto.
  - intros tr s c e s' _ [Hlen H1 H2 H3 H4] Hstep.
    invert_step Hstep; split; simpl in *.
    all: repeat match goal with H : pc _ = _ |- _ => rewrite H in * end.
    all: simpl in *.
    all: try specialize (H3 eq_refl); try specialize (H4 ltac:(lia)).
    all: rewrite ?length_app, ?length_insert; simpl.
    all: destruct H1 as [H1|H1], H2 as [H2|H2]; rewrite ?H1, ?H2 in *.
    all: simpl in *; rewrite ?Hlen.
    all: try solve [ intros; lia | auto | congruence ].
Qed.

Lemma reachable_two_threads tr s :
  reachable tr s -> (length (threads s) <= 2)%nat.
Proof.
  intros H. destruct (reachable_handles _ _ H) as [Hlen _ _ _ _].
  rewrite Hlen. destruct (t1 s), (t2 s); simpl; lia.
Qed.

(** ** Invariant: the contents of [shared_data] *)

Lemma nstored_app tbl1 tbl2 :
  nstored (tbl1 ++ tbl2) = (nstored tbl1 + nstored tbl2)%nat.
Proof. induction tbl1 as [|w tbl1 IH]; simpl; [reflexivity | lia]. Qed.

Lemma nstored_le_length tbl : (nstored tbl <= length tbl)%nat.
Proof.
  induction tbl as [|w tbl IH]; simpl; [lia|]. destruct (stored w); lia.
Qed.

Lemma nstored_insert (tbl : list worker) i w w' :
  tbl !! i = Some w ->
  (nstored (<[i := w']> tbl) + (if stored w then 1 else 0) =
   nstored tbl + (if stored w' then 1 else 0))%nat.
Proof.
  revert i. induction tbl as [|w0 tbl IH]; intros [|i] Hlk;
    try discriminate; simpl in *.
  - injection Hlk as ->. lia.
  - specialize (IH i Hlk). lia.
Qed.

Lemma nstored_all_exited (tbl : list worker) :
  (forall i w, tbl !! i = Some w -> exited w = true) ->
  nstored tbl = length tbl.
Proof.
  induction tbl as [|w tbl IH]; intros H; simpl; [reflexivity|].
  assert (Hw : exited w = true) by (apply (H 0%nat); reflexivity).
  rewrite IH by (intros i w' Hi; apply (H (S i)); exact Hi).
  unfold exited in Hw. unfold stored. destruct (w_pc w); try discriminate; lia.
Qed.

Lemma incr_int_no_overflow r : INT_MIN <= r < INT_MAX -> incr_int r = r + 1.
Proof.
  unfold INT_MIN, INT_MAX, incr_int, wrap_int. intros H.
  rewrite Z.mod_small by lia. lia.
Qed.

Lemma reachable_cell tr s : reachable tr s -> cell_ok s.
Proof.
  revert tr s. apply reachable_invariant.
  - split; simpl; try lia. intros i w r Hlk; discriminate.
  - intros tr s c e s' Hr [Hlo Hup Hst Hregs] Hstep.
    pose proof (reachable_two_threads _ _ Hr) as Hlen.
    pose proof (nstored_le_length (threads s)) as Hns.
    invert_step Hstep; try solve [split; simpl; auto].
    1, 2: split; simpl; rewrite ?nstored_app; simpl; rewrite ?Nat.add_0_r;
      auto; intros j w r Hlk Hpc;
      apply lookup_app_Some in Hlk as [Hlk|[_ Hlk]]; [eauto|];
      apply list_lookup_singleton_Some in Hlk as [_ <-]; discriminate.
    pose proof (nstored_insert _ _ _ w' Hlk) as Hins.
    assert (Hother : forall j w0 r,
               <[i := w']> (threads s) !! j = Some w0 -> w_pc w0 = W_loaded r ->
               (j = i /\ w0 = w') \/ 0 <= r <= Z.of_nat (nstored (threads s))).
    { intros j w0 r Hj Hpc. apply list_lookup_insert_Some in Hj.
      destruct Hj as [(-> & -> & _)|[_ Hj]]; eauto. }
    apply worker_step_inv in Hws.
    destruct Hws as [(Hw & -> & Hw' & ->)|[(r & Hw & -> & Hw' & ->)|(Hw & -> & Hw' & ->)]].
    + (* load *)
      unfold stored in Hins. rewrite Hw, Hw' in Hins.
      split; simpl; try lia.
      intros j w0 r Hj Hpc. destruct (Hother j w0 r Hj Hpc) as [[_ ->]|H]; [|lia].
      rewrite Hw' in Hpc. injection Hpc as <-. lia.
    + (* store *)
      unfold stored in Hins. rewrite Hw, Hw' in Hins.
      destruct (Hregs _ _ _ Hlk Hw) as [Hr0 Hr1].
      rewrite incr_int_no_overflow by (unfold INT_MIN, INT_MAX; lia).
      split; simpl; try lia.
      intros j w0 r0 Hj Hpc. destruct (Hother j w0 r0 Hj Hpc) as [[_ ->]|H]; [|lia].
      rewrite Hw' in Hpc. discriminate.
    + (* return *)
      unfold stored in Hins. rewrite Hw, Hw' in Hins.
      split; simpl; try lia.
      intros j w0 r Hj Hpc. destruct (Hother j w0 r Hj Hpc) as [[_ ->]|H]; [|lia].
      rewrite Hw' in Hpc. discriminate.
Qed.

(** ** Invariant: a joined thread has returned *)

Lemma worker_step_not_exited w cell x :
  worker_step w cell = Some x -> exited w = false.
Proof.
  unfold worker_step, exited. destruct (w_pc w); intros H;
    [reflexivity..|discriminate].
Qed.

Lemma has_exited_insert (tbl : list worker) h i w w' :
  tbl !! i = Some w -> exited w = false ->
  has_exited tbl h -> has_exited (<[i := w']> tbl) h.
Proof.
  intros Hlk Hw H j Hj. destruct (H j Hj) as (w0 & Hlk0 & Hex).
  exists w0. split; [|exact Hex].
  rewrite list_lookup_insert_ne; [exact Hlk0|].
  intros ->. rewrite Hlk in Hlk0. injection Hlk0 as ->. congruence.
Qed.

Lemma handles_valid s :
  handles_ok s ->
  valid_handle (threads s) (t1 s) /\ valid_handle (threads s) (t2 s).
Proof.
  intros [Hlen H1 H2 _ _].
  split; intros i Hi; apply lookup_lt_is_Some_2; rewrite Hlen.
  - destruct H1 as [H1|H1]; rewrite H1 in Hi; [discriminate|].
    injection Hi as <-. rewrite H1. simpl. lia.
  - destruct H2 as [H2|H2]; rewrite H2 in Hi; [discriminate|].
    injection Hi as <-. rewrite H2. simpl. lia.
Qed.

Lemma pthread_join_returns t tbl rc :
  valid_handle tbl t -> pthread_join t tbl = Some rc ->
  has_exited tbl t /\ rc = match t with Some _ => 0 | None => ESRCH end.
Proof.
  unfold pthread_join. intros Hv H. destruct t as [i|].
  - destruct (Hv i eq_refl) as [w Hw]. rewrite Hw in H.
    destruct (exited w) eqn:Hex; [|discriminate]. injection H as <-.
    split; [|reflexivity]. intros j Hj. injection Hj as <-. eauto.
  - discriminate.
Qed.

Lemma reachable_joins tr s : reachable tr s -> joins_ok s.
Proof.
  revert tr s. apply reachable_invariant.
  - split; simpl; lia.
  - intros tr s c e s' Hr [H1 H2] Hstep.
    destruct (handles_valid _ (reachable_handles _ _ Hr)) as [Hv1 Hv2].
    invert_step Hstep.
    all: repeat match goal with H : pc _ = _ |- _ => rewrite H in * end.
    all: simpl in *.
    all: try solve [split; simpl; auto; intros; lia].
    + split; simpl; [intros _|lia].
      eapply pthread_join_returns; eauto.
    + split; simpl; intros _; [apply H1; lia|].
      eapply pthread_join_returns; eauto.
    + pose proof (worker_step_not_exited _ _ _ Hws) as Hne.
      split; simpl; intros Hs; eapply has_exited_insert; eauto.
Qed.

(** Once both joins are done every thread of the table has returned. *)
Lemma reachable_all_exited tr s :
  reachable tr s -> (4 <= stage (pc s))%nat ->
  forall i w, threads s !! i = Some w -> exited w = true.
Proof.
  intros Hr Hs i w Hlk.
  destruct (reachable_joins _ _ Hr) as [H1 H2].
  specialize (H1 ltac:(lia)). specialize (H2 Hs).
  destruct (reachable_handles _ _ Hr) as [Hlen Hh1 Hh2 _ _].
  apply lookup_lt_Some in Hlk as Hi. rewrite Hlen in Hi.
  destruct Hh1 as [E1|E1], Hh2 as [E2|E2]; rewrite ?E1, ?E2 in *;
    simpl in *; try lia.
  - destruct (H2 _ eq_refl) as (w0 & Hw0 & Hex).
    assert (i = 0%nat) as -> by lia. congruence.
  - destruct (H1 _ eq_refl) as (w0 & Hw0 & Hex).
    assert (i = 0%nat) as -> by lia. congruence.
  - destruct (H1 _ eq_refl) as (w0 & Hw0 & Hex0).
    destruct (H2 _ eq_refl) as (w1 & Hw1 & Hex1).
    destruct i as [|[|i]]; [congruence|congruence|lia].
Qed.

Lemma reachable_threads_done tr s i :
  reachable tr s -> (4 <= stage (pc s))%nat -> thread_step i s = None.
Proof.
  intros Hr Hs. destruct (thread_step i s) as [[e s']|] eqn:E; [|reflexivity].
  apply thread_step_inv in E.
  destruct E as (w & we & w' & cell & Hlk & Hws & _).
  apply worker_step_not_exited in Hws.
  rewrite (reachable_all_exited _ _ Hr Hs _ _ Hlk) in Hws. discriminate.
Qed.

(** ** Invariant: what [main] has done so far *)

Lemma main_events_snoc tr e :
  main_events (tr ++ [e]) =
  main_events tr ++ (if is_main_event e then [e] else []).
Proof. unfold main_events. rewrite List.filter_app. reflexivity. Qed.

Lemma reachable_report tr s : reachable tr s -> report_ok tr s.
Proof.
  revert tr s. apply reachable_invariant.
  - split; simpl; auto; discriminate.
  - intros tr s c e s' Hr [Hev Hpf Hst Hout] Hstep.
    pose proof (reachable_handles _ _ Hr) as Hh.
    destruct (handles_valid _ Hh) as [Hv1 Hv2].
    destruct Hh as [_ _ _ Hs0 Hs1].
    unfold main_history, main_actions in *.
    destruct c as [| |i]; simpl in Hstep.
    3: { pose proof (reachable_threads_done _ _ i Hr) as Hdone.
         apply thread_step_inv in Hstep as Hinv.
         destruct Hinv as (w & we & w' & cell & Hlk & Hws & -> & -> & Hlt).
         assert (Hlt4 : (stage (pc s) < 4)%nat).
         { destruct (le_lt_dec 4 (stage (pc s))) as [Hge|]; [|assumption].
           rewrite Hdone in Hstep by exact Hge. discriminate. }
         split; simpl.
         - rewrite main_events_snoc, Hev. simpl. rewrite app_nil_r.
           destruct (pc s); simpl in *; try reflexivity; lia.
         - intros v Hpc. rewrite Hpc in Hlt4. simpl in Hlt4. lia.
         - exact Hst.
         - rewrite Hout. destruct (pc s); simpl in *; try reflexivity; lia. }
    all: split; rewrite ?main_events_snoc, ?Hev.
    all: invert_main_step Hstep.
    all: repeat match goal with H : pc _ = _ |- _ => rewrite H in * end.
    all: unfold main_history, main_actions; simpl in *.
    all: first [specialize (Hs0 eq_refl); rewrite ?Hs0 | clear Hs0].
    all: first [specialize (Hs1 ltac:(lia)); rewrite ?Hs1 | clear Hs1].
    all: rewrite ?Hout; simpl.
    all: try match goal with
             | H : pthread_join _ _ = Some _ |- _ =>
                 apply pthread_join_returns in H as [_ ->]; [|assumption]
             end.
    all: try match goal with
             | H : forall v0, M_printf ?v = M_printf v0 -> v0 = _ |- _ =>
                 pose proof (H _ eq_refl) as ->
             end.
    all: try solve [ reflexivity | intros ? [=]; subst; auto ].
Qed.

(** ** Invariant: what each thread has done so far *)

Lemma thread_events_snoc_main i tr e :
  is_main_event e = true -> thread_events i (tr ++ [e]) = thread_events i tr.
Proof.
  intros He. unfold thread_events. rewrite omap_app. simpl.
  destruct e; try discriminate; simpl; apply app_nil_r.
Qed.

Lemma thread_events_snoc_worker i tr j we :
  thread_events i (tr ++ [Ev_worker j we]) =
  thread_events i tr ++ (if decide (i = j) then [we] else []).
Proof.
  unfold thread_events. rewrite omap_app. simpl.
  destruct (decide (i = j)); reflexivity.
Qed.

Lemma main_step_is_main_event ok s e s' :
  main_step ok s = Some (e, s') -> is_main_event e = true.
Proof. intros H. invert_main_step H; reflexivity. Qed.

Lemma main_step_threads ok s e s' i :
  main_step ok s = Some (e, s') ->
  threads s' !! i = threads s !! i \/
  (threads s !! i = None /\
   threads s' !! i = Some {| w_arg := NULL; w_pc := W_entry |}).
Proof.
  intros H. destruct ok; invert_main_step H; simpl; auto.
  all: destruct (lt_eq_lt_dec i (length (threads s))) as [[Hlt|Heq]|Hgt].
  all: try (left; rewrite lookup_app_l by lia; reflexivity).
  all: try (right; subst i; split; [apply lookup_ge_None_2; lia|];
            rewrite lookup_app_r by lia; rewrite Nat.sub_diag; reflexivity).
  all: left; rewrite (lookup_ge_None_2 (threads s)) by lia;
    apply lookup_ge_None_2; rewrite length_app; simpl; lia.
Qed.

Lemma reachable_thread_history tr s :
  reachable tr s ->
  forall i, exists r,
    0 <= r <= 2 /\ thread_events i tr = thread_history (threads s !! i) r.
Proof.
  revert tr s.
  apply (reachable_invariant (fun tr s => forall i, exists r,
           0 <= r <= 2 /\
           thread_events i tr = thread_history (threads s !! i) r)).
  - intros i. exists 0. split; [lia|]. destruct i; reflexivity.
  - intros tr s c e s' Hr IH Hstep i. destruct (IH i) as (r & Hr02 & Hi).
    apply step_fn_cases in Hstep as [[ok Hstep]|[j Hstep]].
    { rewrite (thread_events_snoc_main _ _ _
                 (main_step_is_main_event _ _ _ _ Hstep)), Hi.
      destruct (main_step_threads _ _ _ _ i Hstep) as [->|[-> ->]];
        exists r; split; [lia|reflexivity|lia|reflexivity]. }
    apply thread_step_inv in Hstep.
    destruct Hstep as (w & we & w' & cell & Hlk & Hws & -> & -> & _).
    rewrite thread_events_snoc_worker, Hi. simpl.
    destruct (decide (i = j)) as [->|Hne].
    + rewrite list_lookup_insert_eq by (eapply lookup_lt_Some; eauto).
      rewrite Hlk. unfold worker_step in Hws. unfold thread_history.
      destruct (w_pc w) as [|r0| |ret] eqn:Hw; try discriminate;
        injection Hws as <- <- <-; simpl.
      * exists r. auto.
      * exists r0. split; [|reflexivity].
        pose proof (ck_regs _ (reachable_cell _ _ Hr) _ _ _ Hlk Hw).
        pose proof (reachable_two_threads _ _ Hr).
        pose proof (nstored_le_length (threads s)). lia.
      * exists r. auto.
    + rewrite list_lookup_insert_ne by congruence.
      exists r. split; [lia|apply app_nil_r].
Qed.

Lemma reachable_returns_null tr s :
  reachable tr s ->
  forall i w ret, threads s !! i = Some w -> w_pc w = W_exited ret -> ret = NULL.
Proof.
  revert tr s.
  apply (reachable_invariant (fun _ s => forall i w ret,
           threads s !! i = Some w -> w_pc w = W_exited ret -> ret = NULL)).
  - intros i w ret Hlk. destruct i; discriminate.
  - intros tr s c e s' _ IH Hstep i w0 ret Hlk0 Hpc0.
    apply step_fn_cases in Hstep as [[ok Hstep]|[j Hstep]].
    { destruct (main_step_threads _ _ _ _ i Hstep) as [E|[_ E]];
        rewrite E in Hlk0; [eauto | injection Hlk0 as <-; discriminate]. }
    apply thread_step_inv in Hstep.
    destruct Hstep as (w & we & w' & cell & Hlk & Hws & -> & -> & _).
    simpl in Hlk0. apply list_lookup_insert_Some in Hlk0.
    destruct Hlk0 as [(-> & -> & _)|[_ Hlk0]]; [|eauto].
    apply worker_step_inv in Hws.
    destruct Hws as [(_ & _ & Hw' & _)|[(r & _ & _ & Hw' & _)|(_ & _ & Hw' & _)]];
      rewrite Hw' in Hpc0; try discriminate.
    injection Hpc0 as <-. reflexivity.
Qed.

(** ** Reading the state off the events of [main] *)

Lemma main_event_in_history tr s e :
  reachable tr s -> e ∈ tr -> is_main_event e = true -> e ∈ main_history s.
Proof.
  intros Hr He Hm. rewrite <- (rk_events _ _ (reachable_report _ _ Hr)).
  unfold main_events. apply list_elem_of_In, List.filter_In.
  split; [apply list_elem_of_In; exact He | exact Hm].
Qed.

Ltac history_cases H :=
  unfold main_history, main_actions in H;
  match type of H with
  | _ ∈ take (stage (pc ?s)) _ => destruct (pc s) eqn:?Hpc; simpl in H
  end;
  set_unfold in H.

Lemma main_event_fact tr s e : reachable tr s -> e ∈ tr -> event_fact s e.
Proof.
  intros Hr He.
  destruct e as [[|] rc|[|] rc|v|v|st|i we]; [..|exact I].
  all: apply (main_event_in_history _ _ _ Hr) in He; [|reflexivity].
  all: history_cases He; try (exfalso; exact He).
  all: repeat (destruct He as [He|He]); try discriminate He.
  all: inversion He; subst; unfold event_fact; rewrite Hpc.
  all: split; simpl; (lia || reflexivity).
Qed.

Lemma create_rc_0 h : create_rc h = 0 -> started h = 1%nat.
Proof. destruct h; [reflexivity | discriminate]. Qed.

(** After both joins [shared_data] lies between the number of threads
    (none, one or two) and, when there is a thread at all, 1. *)
Lemma reachable_joined_cell tr s :
  reachable tr s -> (4 <= stage (pc s))%nat ->
  length (threads s) = (started (t1 s) + started (t2 s))%nat /\
  0 <= shared_data s <= Z.of_nat (length (threads s)) /\
  ((0 < length (threads s))%nat -> 1 <= shared_data s).
Proof.
  intros Hr Hs.
  destruct (reachable_cell _ _ Hr) as [Hlo Hup Hst _].
  rewrite (nstored_all_exited _ (reachable_all_exited _ _ Hr Hs)) in Hup, Hst.
  split; [apply (hk_length _ (reachable_handles _ _ Hr))|]. auto.
Qed.

(** ** Termination and absence of deadlock *)

Lemma threads_todo_app tbl1 tbl2 :
  threads_todo (tbl1 ++ tbl2) = (threads_todo tbl1 + threads_todo tbl2)%nat.
Proof. induction tbl1 as [|w tbl1 IH]; simpl; [reflexivity | lia]. Qed.

Lemma threads_todo_insert (tbl : list worker) i w w' :
  tbl !! i = Some w ->
  (threads_todo (<[i := w']> tbl) + todo w = threads_todo tbl + todo w')%nat.
Proof.
  revert i. induction tbl as [|w0 tbl IH]; intros [|i] Hlk;
    try discriminate; simpl in *.
  - injection Hlk as ->. lia.
  - specialize (IH i Hlk). lia.
Qed.

Lemma worker_step_todo w cell e w' cell' :
  worker_step w cell = Some (e, w', cell') -> todo w = S (todo w').
Proof.
  unfold worker_step, todo. destruct (w_pc w); intros H; try discriminate;
    injection H as <- <- <-; reflexivity.
Qed.

Lemma step_remaining c s e s' :
  step_fn c s = Some (e, s') -> (remaining s' < remaining s)%nat.
Proof.
  intros Hstep. unfold remaining. invert_step Hstep.
  all: repeat match goal with H : pc _ = _ |- _ => rewrite H in * end.
  all: simpl; rewrite ?threads_todo_app; simpl; try lia.
  pose proof (threads_todo_insert _ _ _ w' Hlk) as Hins.
  apply worker_step_todo in Hws. lia.
Qed.

Lemma run_remaining sched s tr s' :
  run sched s = Some (tr, s') ->
  (length sched + remaining s' <= remaining s)%nat /\ length tr = length sched.
Proof.
  revert s tr. induction sched as [|c sched IH]; intros s tr Hrun;
    simpl in Hrun.
  - injection Hrun as <- <-. simpl. lia.
  - destruct (step_fn c s) as [[e s0]|] eqn:Hstep; [|discriminate].
    destruct (run sched s0) as [[tr0 s1]|] eqn:Hrest; [|discriminate].
    injection Hrun as <- <-. apply step_remaining in Hstep.
    destruct (IH _ _ Hrest) as [IH1 IH2]. simpl. lia.
Qed.

Lemma worker_step_enabled w cell :
  exited w = false -> is_Some (worker_step w cell).
Proof.
  unfold exited, worker_step. destruct (w_pc w); intros H; eauto; discriminate.
Qed.

(** While [main] has not returned some action is enabled, [main] itself
    or the thread it waits for in a [pthread_join], unless [main] is at
    the [pthread_join] of a handle that is not set. *)
Lemma progress s :
  (stage (pc s) < 7)%nat ->
  (pc s = M_join1 -> is_Some (t1 s)) ->
  (pc s = M_join2 -> is_Some (t2 s)) ->
  exists c e s', step_fn c s = Some (e, s').
Proof.
  intros Hs H1 H2. destruct (pc s) eqn:Hpc; simpl in Hs; try lia.
  1, 2, 5, 6, 7: exists Run_main; unfold step_fn, main_step; rewrite Hpc;
    simpl; eauto.
  - destruct (H1 eq_refl) as [i Hi].
    destruct (pthread_join (t1 s) (threads s)) as [rc|] eqn:Ej.
    + exists Run_main. unfold step_fn, main_step. rewrite Hpc, Ej. eauto.
    + unfold pthread_join in Ej. rewrite Hi in Ej.
      destruct (threads s !! i) as [w|] eqn:Hlk; [|discriminate].
      destruct (exited w) eqn:Hex; [discriminate|].
      destruct (worker_step_enabled w (shared_data s) Hex) as [[[we w'] c] Hw].
      exists (Run_thread i). unfold step_fn, thread_step.
      rewrite Hpc, Hlk, Hw. eauto.
  - destruct (H2 eq_refl) as [i Hi].
    destruct (pthread_join (t2 s) (threads s)) as [rc|] eqn:Ej.
    + exists Run_main. unfold step_fn, main_step. rewrite Hpc, Ej. eauto.
    + unfold pthread_join in Ej. rewrite Hi in Ej.
      destruct (threads s !! i) as [w|] eqn:Hlk; [|discriminate].
      destruct (exited w) eqn:Hex; [discriminate|].
      destruct (worker_step_enabled w (shared_data s) Hex) as [[[we w'] c] Hw].
      exists (Run_thread i). unfold step_fn, thread_step.
      rewrite Hpc, Hlk, Hw. eauto.
Qed.

(** ** Properties of the program *)

Lemma normal_run_state tr s :
  reachable tr s -> normal_run tr ->
  (4 <= stage (pc s))%nat /\ length (threads s) = 2%nat /\
  1 <= shared_data s <= 2.
Proof.
  intros Hr [[Hc1 Hc2] [Hj1 Hj2]].
  apply (main_event_fact _ _ _ Hr) in Hc1 as [_ Hc1].
  apply (main_event_fact _ _ _ Hr) in Hc2 as [_ Hc2].
  apply (main_event_fact _ _ _ Hr) in Hj2 as [Hs _].
  destruct (reachable_joined_cell _ _ Hr Hs) as (Hlen & Hc & Hpos).
  rewrite (create_rc_0 _ (eq_sym Hc1)), (create_rc_0 _ (eq_sym Hc2)) in Hlen.
  simpl in Hlen. rewrite Hlen in *. split; [exact Hs|]. split; [reflexivity|].
  specialize (Hpos ltac:(lia)). lia.
Qed.

(** C1.  In every run in which both workers are spawned and both are
    joined, [shared_data] holds 1 or 2 after the joins, whatever the
    interleaving of the loads and stores of the two workers, and every value
    that [main] prints is 1 or 2. *)
Theorem emitted_value_1_or_2 sched tr s :
  run sched init = Some (tr, s) -> normal_run tr ->
  (shared_data s = 1 \/ shared_data s = 2) /\
  (forall v, Ev_printf v ∈ tr -> v = 1 \/ v = 2).
Proof.
  intros Hrun Hn. assert (Hr : reachable tr s) by (exists sched; exact Hrun).
  destruct (normal_run_state _ _ Hr Hn) as (_ & _ & Hc).
  split; [lia|]. intros v Hv.
  apply (main_event_fact _ _ _ Hr) in Hv as [_ ->]. lia.
Qed.

Lemma emitted_value_1_or_2_witness :
  run lost_update init = Some (lost_update_trace, final 1) /\
  normal_run lost_update_trace /\
  (shared_data (final 1) = 1 \/ shared_data (final 1) = 2) /\
  (forall v, Ev_printf v ∈ lost_update_trace -> v = 1 \/ v = 2).
Proof.
  split; [reflexivity|]. split; [compute_done|].
  apply (emitted_value_1_or_2 lost_update lost_update_trace (final 1));
    [reflexivity | compute_done].
Defined.

(** C2.  The increment is a load and a store, two steps: the store writes
    the successor of the value loaded, whatever [shared_data] holds by
    then.  Both outcomes are reachable: under [serial] the program prints
    2, under [lost_update], where both loads come before both stores, it
    prints 1. *)
Theorem both_outcomes_reachable :
  (forall arg cell cell',
      worker_step {| w_arg := arg; w_pc := W_entry |} cell =
        Some (Load cell, {| w_arg := arg; w_pc := W_loaded cell |}, cell) /\
      worker_step {| w_arg := arg; w_pc := W_loaded cell |} cell' =
        Some (Store (incr_int cell), {| w_arg := arg; w_pc := W_stored |},
              incr_int cell)) /\
  (run serial init = Some (serial_trace, final 2) /\
   normal_run serial_trace /\ Ev_printf 2 ∈ serial_trace /\
   stdout (final 2) = ("2" ++ newline)%string) /\
  (run lost_update init = Some (lost_update_trace, final 1) /\
   normal_run lost_update_trace /\ Ev_printf 1 ∈ lost_update_trace /\
   stdout (final 1) = ("1" ++ newline)%string).
Proof.
  split; [intros arg cell cell'; split; reflexivity|].
  split; (split; [reflexivity|]); (split; [compute_done|]);
    (split; [compute_done|reflexivity]).
Qed.

Lemma reachable_exit_status tr s st :
  reachable tr s -> pc s = M_exited st -> st = 0.
Proof. intros Hr. apply (rk_status _ _ (reachable_report _ _ Hr)). Qed.

Lemma action_index_main e n : action_index e = Some n -> is_main_event e = true.
Proof. destruct e; [reflexivity..|discriminate]. Qed.

Lemma main_actions_index s m e :
  main_actions s !! m = Some e -> action_index e = Some m.
Proof.
  unfold main_actions.
  destruct m as [|[|[|[|[|[|[|m]]]]]]]; simpl; intros H; try discriminate;
    injection H as <-; reflexivity.
Qed.

Lemma thread_events_elem i we tr :
  we ∈ thread_events i tr -> Ev_worker i we ∈ tr.
Proof.
  unfold thread_events. rewrite list_elem_of_omap. intros (e & He & Hwe).
  destruct e as [| | | | |j we']; try discriminate.
  destruct (decide (i = j)) as [->|]; [|discriminate].
  injection Hwe as ->. exact He.
Qed.

Lemma nstored_none (tbl : list worker) :
  (forall i w, tbl !! i = Some w -> stored w = false) -> nstored tbl = 0%nat.
Proof.
  induction tbl as [|w tbl IH]; intros H; simpl; [reflexivity|].
  rewrite (H 0%nat w eq_refl), IH; [reflexivity|].
  intros i w' Hi. apply (H (S i)). exact Hi.
Qed.

Lemma reachable_no_store tr s :
  reachable tr s -> (forall i v, Ev_worker i (Store v) ∉ tr) ->
  shared_data s = 0.
Proof.
  intros Hr Hno. destruct (reachable_cell _ _ Hr) as [Hlo Hup _ _].
  rewrite nstored_none in Hup; [simpl in Hup; lia|].
  intros i w Hlk. destruct (stored w) eqn:Hst; [exfalso|reflexivity].
  destruct (reachable_thread_history _ _ Hr i) as (r & _ & Hev).
  rewrite Hlk in Hev. unfold thread_history in Hev. unfold stored in Hst.
  apply (Hno i (incr_int r)), thread_events_elem. rewrite Hev.
  destruct (w_pc w); try discriminate; set_solver.
Qed.

(** C5.  [main] does its actions in program order: its events in a trace
    are an initial segment of create [t1], create [t2], join [t1], join
    [t2], read [shared_data], printf, return.  So whenever an event of
    [main] occurs, the events of [main] before it in the trace are exactly
    the actions that precede it in that order: both creates before a join,
    both joins before the read, the read before the printf, which prints
    the value read.  As long as no worker has stored, [shared_data] is 0. *)
Theorem main_program_order sched tr s :
  run sched init = Some (tr, s) ->
  main_events tr `prefix_of` main_actions s /\
  (forall tr1 e tr2 n,
      tr = tr1 ++ e :: tr2 -> action_index e = Some n ->
      main_events tr1 = take n (main_actions s) /\
      main_actions s !! n = Some e) /\
  ((forall i v, Ev_worker i (Store v) ∉ tr) -> shared_data s = 0).
Proof.
  intros Hrun. assert (Hr : reachable tr s) by (exists sched; exact Hrun).
  pose proof (rk_events _ _ (reachable_report _ _ Hr)) as Hev.
  unfold main_history in Hev.
  split; [rewrite Hev; apply prefix_take|].
  split; [|apply (reachable_no_store _ _ Hr)].
  intros tr1 e tr2 n -> Hn.
  unfold main_events in Hev. rewrite List.filter_app in Hev. simpl in Hev.
  rewrite (action_index_main _ _ Hn) in Hev.
  fold (main_events tr1) in Hev. fold (main_events tr2) in Hev.
  assert (Hlk : take (stage (pc s)) (main_actions s)
                  !! length (main_events tr1) = Some e).
  { rewrite <- Hev. apply list_lookup_middle. reflexivity. }
  apply lookup_take_Some in Hlk as [Hlk Hlt].
  pose proof (main_actions_index _ _ _ Hlk) as Hm.
  rewrite Hn in Hm. injection Hm as Hm. rewrite <- Hm in Hlk, Hlt.
  split; [|exact Hlk].
  transitivity (take n (main_events tr1 ++ e :: main_events tr2)).
  - symmetry. apply take_app_length'. exact Hm.
  - rewrite Hev, take_take. f_equal. lia.
Qed.

Lemma main_program_order_witness :
  run lost_update init = Some (lost_update_trace, final 1) /\
  main_events lost_update_trace `prefix_of` main_actions (final 1) /\
  (forall tr1 e tr2 n,
      lost_update_trace = tr1 ++ e :: tr2 -> action_index e = Some n ->
      main_events tr1 = take n (main_actions (final 1)) /\
      main_actions (final 1) !! n = Some e) /\
  ((forall i v, Ev_worker i (Store v) ∉ lost_update_trace) ->
   shared_data (final 1) = 0).
Proof.
  split; [reflexivity|].
  apply (main_program_order lost_update lost_update_trace (final 1)).
  reflexivity.
Defined.

(** C6.  One execution of [thread_function] is one increment and yields no
    result: run without interruption it adds 1 to [shared_data] (short of
    [INT_MAX]) and returns [NULL], and its three atomic actions compute
    just that.  In every run of the program each thread loads once, stores
    once, the successor of what it loaded, and returns [NULL]: its events
    are an initial segment of that sequence, and the whole sequence once it
    has returned. *)
Theorem worker_one_increment sched tr s :
  run sched init = Some (tr, s) ->
  (forall i, exists r,
      thread_events i tr `prefix_of` [Load r; Store (r + 1); Exit NULL] /\
      (forall w, threads s !! i = Some w -> exited w = true ->
                 thread_events i tr = [Load r; Store (r + 1); Exit NULL])) /\
  (forall arg cell,
      thread_function arg cell = (NULL, incr_int cell) /\
      worker_run 3 {| w_arg := arg; w_pc := W_entry |} cell =
        ({| w_arg := arg; w_pc := W_exited NULL |}, incr_int cell) /\
      (INT_MIN <= cell < INT_MAX -> incr_int cell = cell + 1)).
Proof.
  intros Hrun. assert (Hr : reachable tr s) by (exists sched; exact Hrun).
  split.
  - intros i. destruct (reachable_thread_history _ _ Hr i) as (r & Hr02 & Hev).
    assert (Hincr : incr_int r = r + 1).
    { apply incr_int_no_overflow. unfold INT_MIN, INT_MAX. lia. }
    unfold thread_history in Hev. rewrite Hincr in Hev.
    destruct (threads s !! i) as [w|] eqn:Hlk.
    2: { exists r. rewrite Hev. split; [apply prefix_nil|discriminate]. }
    unfold exited.
    destruct (w_pc w) as [|r'| |ret] eqn:Hw; rewrite Hev.
    + exists r. split; [apply prefix_nil|].
      intros w0 [= <-]. rewrite Hw. discriminate.
    + exists r'. split; [exists [Store (r' + 1); Exit NULL]; reflexivity|].
      intros w0 [= <-]. rewrite Hw. discriminate.
    + exists r. split; [exists [Exit NULL]; reflexivity|].
      intros w0 [= <-]. rewrite Hw. discriminate.
    + rewrite (reachable_returns_null _ _ Hr _ _ _ Hlk Hw).
      exists r. split; reflexivity.
  - intros arg cell. split; [reflexivity|]. split; [reflexivity|].
    apply incr_int_no_overflow.
Qed.

Lemma worker_one_increment_witness :
  run lost_update init = Some (lost_update_trace, final 1) /\
  thread_events 1 lost_update_trace = [Load 0; Store 1; Exit NULL] /\
  thread_function NULL 0 = (NULL, 1) /\
  (forall i, exists r,
      thread_events i lost_update_trace
        `prefix_of` [Load r; Store (r + 1); Exit NULL] /\
      (forall w, threads (final 1) !! i = Some w -> exited w = true ->
                 thread_events i lost_update_trace =
                   [Load r; Store (r + 1); Exit NULL])) /\
  (forall arg cell,
      thread_function arg cell = (NULL, incr_int cell) /\
      worker_run 3 {| w_arg := arg; w_pc := W_entry |} cell =
        ({| w_arg := arg; w_pc := W_exited NULL |}, incr_int cell) /\
      (INT_MIN <= cell < INT_MAX -> incr_int cell = cell + 1)).
Proof.
  split; [reflexivity|]. split; [reflexivity|]. split; [reflexivity|].
  apply (worker_one_increment lost_update lost_update_trace (final 1)).
  reflexivity.
Defined.

Lemma main_event_in_trace tr e : e ∈ main_events tr -> e ∈ tr.
Proof.
  unfold main_events. rewrite !list_elem_of_In, List.filter_In. tauto.
Qed.

(** C7.  On the success path standard output is one line and nothing
    else: before the [printf] nothing has been written, and from the
    [printf] on standard output is the decimal representation of the value
    of [shared_data] after the joins followed by one newline, which is the
    line "1" or the line "2". *)
Theorem stdout_single_line sched tr s :
  run sched init = Some (tr, s) -> normal_run tr ->
  ((forall v, Ev_printf v ∉ tr) -> stdout s = EmptyString) /\
  (forall v, Ev_printf v ∈ tr ->
     v = shared_data s /\
     stdout s = (NilZero.string_of_int (Z.to_int v) ++ newline)%string /\
     (stdout s = ("1" ++ newline)%string \/
      stdout s = ("2" ++ newline)%string)).
Proof.
  intros Hrun Hn. assert (Hr : reachable tr s) by (exists sched; exact Hrun).
  destruct (reachable_report _ _ Hr) as [Hev _ _ Hout].
  split.
  - intros Hno. rewrite Hout.
    destruct (stage (pc s) <? 6)%nat eqn:Hlt; [reflexivity|exfalso].
    apply Nat.ltb_ge in Hlt.
    apply (Hno (shared_data s)), main_event_in_trace. rewrite Hev.
    unfold main_history, main_actions.
    destruct (pc s); simpl in Hlt; try lia; simpl; set_solver.
  - intros v Hv. apply (main_event_fact _ _ _ Hr) in Hv as [Hs ->].
    split; [reflexivity|]. rewrite Hout.
    apply Nat.ltb_ge in Hs. rewrite Hs. split; [reflexivity|].
    destruct (normal_run_state _ _ Hr Hn) as (_ & _ & Hc).
    assert (Hv : shared_data s = 1 \/ shared_data s = 2) by lia.
    destruct Hv as [-> | ->]; [left|right]; reflexivity.
Qed.

Lemma stdout_single_line_witness :
  run serial init = Some (serial_trace, final 2) /\
  normal_run serial_trace /\
  Ev_printf 2 ∈ serial_trace /\
  stdout (final 2) = ("2" ++ newline)%string /\
  ((forall v, Ev_printf v ∉ serial_trace) -> stdout (final 2) = EmptyString) /\
  (forall v, Ev_printf v ∈ serial_trace ->
     v = shared_data (final 2) /\
     stdout (final 2) = (NilZero.string_of_int (Z.to_int v) ++ newline)%string /\
     (stdout (final 2) = ("1" ++ newline)%string \/
      stdout (final 2) = ("2" ++ newline)%string)).
Proof.
  split; [reflexivity|]. split; [compute_done|]. split; [compute_done|].
  split; [reflexivity|].
  apply (stdout_single_line serial serial_trace (final 2));
    [reflexivity | compute_done].
Defined.

(** C9.  [thread_function] does not look at its argument: for any two
    arguments it has the same effect on [shared_data], one increment, and
    returns the same value, [NULL]; and each of its atomic actions emits
    the same event, moves to the same point and leaves the same contents
    in [shared_data] whichever the argument. *)
Theorem thread_function_ignores_arg (arg1 arg2 : pointer) (cell : Z) :
  thread_function arg1 cell = thread_function arg2 cell /\
  thread_function arg1 cell = (NULL, incr_int cell) /\
  (forall p,
      match worker_step {| w_arg := arg1; w_pc := p |} cell,
            worker_step {| w_arg := arg2; w_pc := p |} cell with
      | Some (e1, w1, c1), Some (e2, w2, c2) =>
          e1 = e2 /\ w_pc w1 = w_pc w2 /\ c1 = c2 /\
          w_arg w1 = arg1 /\ w_arg w2 = arg2
      | None, None => True
      | _, _ => False
      end).
Proof.
  split; [reflexivity|]. split; [reflexivity|].
  intros [|r| |ret]; simpl; auto.
Qed.

(** C10.  An action of a thread changes [shared_data], and that only by a
    store, and the thread's own position in [thread_function]; the locals
    [t1] and [t2] of [main], the position of [main], standard output, the
    other threads and the thread's argument are as before. *)
Theorem worker_frame i s e s' :
  thread_step i s = Some (e, s') ->
  t1 s' = t1 s /\ t2 s' = t2 s /\ pc s' = pc s /\ stdout s' = stdout s /\
  length (threads s') = length (threads s) /\
  (forall j, j <> i -> threads s' !! j = threads s !! j) /\
  (exists w w', threads s !! i = Some w /\ threads s' !! i = Some w' /\
                w_arg w' = w_arg w) /\
  (exists we, e = Ev_worker i we /\
              ((forall v, we <> Store v) -> shared_data s' = shared_data s)).
Proof.
  intros Hstep. apply thread_step_inv in Hstep.
  destruct Hstep as (w & we & w' & cell & Hlk & Hws & -> & -> & _). simpl.
  repeat (split; [reflexivity|]).
  split; [apply length_insert|].
  split; [intros j Hj; apply list_lookup_insert_ne; congruence|].
  split.
  - exists w, w'. split; [exact Hlk|].
    split; [apply list_lookup_insert_eq; eapply lookup_lt_Some; eauto|].
    unfold worker_step in Hws.
    destruct (w_pc w); try discriminate; injection Hws as <- <- <-; reflexivity.
  - exists we. split; [reflexivity|]. intros Hns.
    apply worker_step_inv in Hws.
    destruct Hws as [(_ & _ & _ & ->)|[(r & _ & -> & _)|(_ & _ & _ & ->)]];
      try reflexivity.
    destruct (Hns _ eq_refl).
Qed.

Lemma worker_frame_witness :
  thread_step 0 both_loaded = Some (Ev_worker 0 (Store 1), first_stored) /\
  t1 first_stored = t1 both_loaded /\ t2 first_stored = t2 both_loaded /\
  pc first_stored = pc both_loaded /\
  stdout first_stored = stdout both_loaded /\
  length (threads first_stored) = length (threads both_loaded) /\
  (forall j, j <> 0%nat ->
             threads first_stored !! j = threads both_loaded !! j) /\
  (exists w w', threads both_loaded !! 0%nat = Some w /\
                threads first_stored !! 0%nat = Some w' /\
                w_arg w' = w_arg w) /\
  (exists we, Ev_worker 0 (Store 1) = Ev_worker 0 we /\
              ((forall v, we <> Store v) ->
               shared_data first_stored = shared_data both_loaded)).
Proof.
  split; [reflexivity|].
  apply (worker_frame 0 both_loaded (Ev_worker 0 (Store 1)) first_stored).
  reflexivity.
Defined.

(** ** Further properties: what [main] changes *)

Lemma main_step_stage ok s e s' :
  main_step ok s = Some (e, s') -> stage (pc s') = S (stage (pc s)).
Proof. intros H. destruct ok; invert_main_step H; reflexivity. Qed.

(** X7.  An action of [main] never writes [shared_data] and never changes
    a thread of the table (a [pthread_create] only adds one at the end); it
    moves [main] one action on and only appends to standard output. *)
Theorem main_frame ok s e s' :
  main_step ok s = Some (e, s') ->
  shared_data s' = shared_data s /\
  (forall i w, threads s !! i = Some w -> threads s' !! i = Some w) /\
  (exists out, stdout s' = (stdout s ++ out)%string) /\
  stage (pc s') = S (stage (pc s)) /\
  is_main_event e = true.
Proof.
  intros H. split; [|split; [|split; [|split]]].
  - destruct ok; invert_main_step H; reflexivity.
  - intros i w Hlk.
    destruct (main_step_threads _ _ _ _ i H) as [->|[E _]]; congruence.
  - assert (Hnil : forall x : string, x = (x ++ EmptyString)%string).
    { induction x as [|a x IH]; simpl; congruence. }
    destruct ok; invert_main_step H; simpl; eauto.
  - apply (main_step_stage _ _ _ _ H).
  - apply (main_step_is_main_event _ _ _ _ H).
Qed.

Lemma main_frame_witness :
  main_step true both_loaded = None /\
  main_step true (final 2) = None /\
  main_step true init =
    Some (Ev_create T1 0,
          {| shared_data := 0;
             threads := [{| w_arg := NULL; w_pc := W_entry |}];
             t1 := Some 0%nat; t2 := None; pc := M_create2;
             stdout := EmptyString |}) /\
  shared_data
    {| shared_data := 0;
       threads := [{| w_arg := NULL; w_pc := W_entry |}];
       t1 := Some 0%nat; t2 := None; pc := M_create2;
       stdout := EmptyString |} = shared_data init.
Proof.
  split; [reflexivity|]. split; [reflexivity|]. split; [reflexivity|].
  apply (main_frame true init (Ev_create T1 0)
           {| shared_data := 0;
              threads := [{| w_arg := NULL; w_pc := W_entry |}];
              t1 := Some 0%nat; t2 := None; pc := M_create2;
              stdout := EmptyString |}).
  reflexivity.
Defined.

(** ** Further properties: calls in sequence *)

(** X8.  Calls of [thread_function] that do not overlap lose nothing: [n]
    calls one after the other, with any arguments, add [n] to
    [shared_data], as long as the result fits an [int]. *)
Theorem sequential_calls_add (args : list pointer) (cell : Z) :
  INT_MIN <= cell -> cell + Z.of_nat (length args) <= INT_MAX ->
  sequential_calls args cell = cell + Z.of_nat (length args).
Proof.
  unfold sequential_calls. revert cell.
  induction args as [|arg args IH]; intros cell Hlo Hhi; cbn [fold_left].
  - simpl. lia.
  - change (length (arg :: args)) with (S (length args)) in *.
    assert (Hc : snd (thread_function arg cell) = cell + 1).
    { unfold thread_function. cbn [snd]. apply incr_int_no_overflow. lia. }
    rewrite Hc, IH; lia.
Qed.

Lemma sequential_calls_add_witness :
  sequential_calls [NULL; NULL] (shared_data init) = 2.
Proof.
  apply (sequential_calls_add [NULL; NULL] (shared_data init));
    unfold INT_MIN, INT_MAX; simpl; lia.
Defined.

(** ** Further properties: the values of [shared_data] *)

Lemma nstored_lt_length (tbl : list worker) i w :
  tbl !! i = Some w -> stored w = false -> (nstored tbl < length tbl)%nat.
Proof.
  intros Hlk Hw.
  pose proof (nstored_insert _ _ _ {| w_arg := NULL; w_pc := W_stored |} Hlk)
    as Hins.
  pose proof (nstored_le_length
                (<[i := {| w_arg := NULL; w_pc := W_stored |}]> tbl)) as Hle.
  rewrite length_insert in Hle. rewrite Hw in Hins. simpl in Hins. lia.
Qed.

Lemma main_history_in_trace tr s e :
  reachable tr s -> e ∈ main_history s -> e ∈ tr.
Proof.
  intros Hr He. apply main_event_in_trace.
  rewrite (rk_events _ _ (reachable_report _ _ Hr)). exact He.
Qed.

(** X3.  With the two threads of the program [shared_data] never
    decreases and never leaves the range 0 to 2: a step leaves it as it is
    or, being a store, raises it. *)
Theorem shared_data_never_decreases sched tr s c e s' :
  run sched init = Some (tr, s) -> step_fn c s = Some (e, s') ->
  0 <= shared_data s <= shared_data s' /\ shared_data s' <= 2 /\
  (shared_data s < shared_data s' ->
   exists i, e = Ev_worker i (Store (shared_data s'))).
Proof.
  intros Hrun Hstep.
  assert (Hr : reachable tr s) by (exists sched; exact Hrun).
  pose proof (reachable_step _ _ _ _ _ Hr Hstep) as Hr'.
  destruct (reachable_cell _ _ Hr) as [Hlo Hup _ Hregs].
  destruct (reachable_cell _ _ Hr') as [_ Hup' _ _].
  pose proof (reachable_two_threads _ _ Hr') as Hlen'.
  pose proof (nstored_le_length (threads s')) as Hns'.
  pose proof (reachable_two_threads _ _ Hr) as Hlen.
  split; [|split; [lia|]].
  - apply step_fn_cases in Hstep as [[ok Hstep]|[i Hstep]].
    + assert (shared_data s' = shared_data s) as ->; [|lia].
      destruct ok; invert_main_step Hstep; reflexivity.
    + apply thread_step_inv in Hstep.
      destruct Hstep as (w & we & w' & cell & Hlk & Hws & -> & -> & _).
      simpl. apply worker_step_inv in Hws.
      destruct Hws as [(_ & _ & _ & ->)|[(r & Hw & _ & _ & ->)|(_ & _ & _ & ->)]];
        try lia.
      destruct (Hregs _ _ _ Hlk Hw) as [Hr0 Hr1].
      assert (Hst : stored w = false) by (unfold stored; rewrite Hw; reflexivity).
      pose proof (nstored_lt_length _ _ _ Hlk Hst) as Hlt.
      rewrite incr_int_no_overflow by (unfold INT_MIN, INT_MAX; lia). lia.
  - intros Hlt. apply step_fn_cases in Hstep as [[ok Hstep]|[i Hstep]].
    + exfalso. assert (shared_data s' = shared_data s) as E; [|lia].
      destruct ok; invert_main_step Hstep; reflexivity.
    + apply thread_step_inv in Hstep.
      destruct Hstep as (w & we & w' & cell & Hlk & Hws & -> & -> & _).
      simpl in *. apply worker_step_inv in Hws.
      destruct Hws as [(_ & _ & _ & ->)|[(r & Hw & -> & _ & ->)|(_ & _ & _ & ->)]];
        try lia.
      exists i. reflexivity.
Qed.

Lemma shared_data_never_decreases_witness :
  run to_both_loaded init = Some (to_both_loaded_trace, both_loaded) /\
  step_fn (Run_thread 0) both_loaded =
    Some (Ev_worker 0 (Store 1), first_stored) /\
  0 <= shared_data both_loaded <= shared_data first_stored /\
  shared_data first_stored <= 2 /\
  (shared_data both_loaded < shared_data first_stored ->
   exists i, Ev_worker 0 (Store 1) =
             Ev_worker i (Store (shared_data first_stored))).
Proof.
  split; [reflexivity|]. split; [reflexivity|].
  apply (shared_data_never_decreases to_both_loaded to_both_loaded_trace
           both_loaded (Run_thread 0) (Ev_worker 0 (Store 1)) first_stored);
    reflexivity.
Defined.

(** ** Further properties: what comes before what *)

(** An event of a run is the event of a step taken from the state that
    the events before it lead to. *)
Lemma run_split sched s tr1 e tr2 s' :
  run sched s = Some (tr1 ++ e :: tr2, s') ->
  exists sched1 c sched2 s1 s2,
    sched = sched1 ++ c :: sched2 /\
    run sched1 s = Some (tr1, s1) /\
    step_fn c s1 = Some (e, s2) /\
    run sched2 s2 = Some (tr2, s').
Proof.
  revert s tr1. induction sched as [|c sched IH]; intros s tr1 Hrun;
    simpl in Hrun.
  - injection Hrun as Htr _. destruct tr1; discriminate.
  - destruct (step_fn c s) as [[e0 s0]|] eqn:Hstep; [|discriminate].
    destruct (run sched s0) as [[tr0 s0']|] eqn:Hrest; [|discriminate].
    injection Hrun as Htr ->. destruct tr1 as [|x tr1]; simpl in Htr.
    + injection Htr as -> ->.
      exists [], c, sched, s, s0. simpl. auto.
    + injection Htr as -> ->.
      destruct (IH _ _ Hrest) as (sched1 & c1 & sched2 & s1 & s2 & -> & H1 & H2 & H3).
      exists (c :: sched1), c1, sched2, s1, s2. simpl.
      rewrite Hstep, H1. auto.
Qed.

(** Once set, a handle keeps its contents: [t1] from the first
    [pthread_create] on, [t2] from the second. *)
Lemma step_handles c s e s' :
  step_fn c s = Some (e, s') ->
  (stage (pc s) <= stage (pc s'))%nat /\
  ((1 <= stage (pc s))%nat -> t1 s' = t1 s) /\
  ((2 <= stage (pc s))%nat -> t2 s' = t2 s).
Proof.
  intros Hstep. invert_step Hstep.
  all: repeat match goal with H : pc _ = _ |- _ => rewrite H in * end.
  all: simpl; repeat split; intros; try reflexivity; lia.
Qed.

Lemma run_handles sched s tr s' :
  run sched s = Some (tr, s') ->
  (stage (pc s) <= stage (pc s'))%nat /\
  ((1 <= stage (pc s))%nat -> t1 s' = t1 s) /\
  ((2 <= stage (pc s))%nat -> t2 s' = t2 s).
Proof.
  revert s tr. induction sched as [|c sched IH]; intros s tr Hrun;
    simpl in Hrun.
  - injection Hrun as <- <-. auto.
  - destruct (step_fn c s) as [[e0 s0]|] eqn:Hstep; [|discriminate].
    destruct (run sched s0) as [[tr0 s0']|] eqn:Hrest; [|discriminate].
    injection Hrun as <- <-.
    destruct (step_handles _ _ _ _ Hstep) as (Ha & Hb & Hc).
    destruct (IH _ _ Hrest) as (Ha' & Hb' & Hc').
    split; [lia|]. split; intros Hs.
    + rewrite Hb' by lia. auto.
    + rewrite Hc' by lia. auto.
Qed.

(** A thread that has returned has done its three actions. *)
Lemma exited_thread_events tr s i w :
  reachable tr s -> threads s !! i = Some w -> exited w = true ->
  exists r, thread_events i tr = [Load r; Store (r + 1); Exit NULL].
Proof.
  intros Hr Hlk Hex.
  destruct (reachable_thread_history _ _ Hr i) as (r & Hr02 & Hev).
  rewrite Hlk in Hev. unfold thread_history in Hev. unfold exited in Hex.
  destruct (w_pc w) as [| | |ret] eqn:Hw; try discriminate.
  rewrite (reachable_returns_null _ _ Hr _ _ _ Hlk Hw) in Hev.
  rewrite incr_int_no_overflow in Hev by (unfold INT_MIN, INT_MAX; lia).
  eauto.
Qed.

(** Where the handle [h] is set the [pthread_create] on it has
    succeeded. *)
Lemma handle_created tr s h i :
  reachable tr s -> handle h s = Some i -> Ev_create h 0 ∈ tr.
Proof.
  intros Hr Hh. destruct (reachable_handles _ _ Hr) as [_ _ _ Hs0 Hs1].
  apply (main_history_in_trace _ _ _ Hr). unfold main_history, main_actions.
  destruct h; simpl in Hh; rewrite Hh in *; simpl.
  - destruct (pc s); simpl in *;
      try (specialize (Hs0 eq_refl); discriminate);
      apply list_elem_of_In; simpl; tauto.
  - destruct (pc s); simpl in *;
      try (specialize (Hs1 ltac:(lia)); discriminate);
      apply list_elem_of_In; simpl; tauto.
Qed.

(** X4.  A [pthread_join] returns 0 only after the thread it names has
    returned: in a trace the events before a successful join hold the
    successful [pthread_create] on the same handle and all three actions
    of the thread that the handle names, the last one its return. *)
Theorem join_after_exit sched tr s tr1 h tr2 :
  run sched init = Some (tr, s) -> tr = tr1 ++ Ev_join h 0 :: tr2 ->
  Ev_create h 0 ∈ tr1 /\
  exists i r,
    handle h s = Some i /\
    thread_events i tr1 = [Load r; Store (r + 1); Exit NULL].
Proof.
  intros Hrun ->. apply run_split in Hrun.
  destruct Hrun as (sched1 & c & sched2 & s1 & s2 & -> & H1 & Hstep & H2).
  assert (Hr1 : reachable tr1 s1) by (exists sched1; exact H1).
  destruct (handles_valid _ (reachable_handles _ _ Hr1)) as [Hv1 Hv2].
  destruct (run_handles _ _ _ _ H2) as (_ & Hk1 & Hk2).
  destruct (step_handles _ _ _ _ Hstep) as (_ & Hj1 & Hj2).
  assert (Hj : exists i w,
             handle h s1 = Some i /\ threads s1 !! i = Some w /\
             exited w = true /\ (3 <= stage (pc s2))%nat /\
             (2 <= stage (pc s1))%nat).
  { apply step_fn_cases in Hstep as [[ok Hstep]|[i Hstep]].
    - unfold main_step in Hstep.
      destruct (pc s1) eqn:Hpc; try discriminate.
      + destruct (pthread_create ok (t1 s1) NULL (threads s1)) as [[? ?] ?];
          discriminate.
      + destruct (pthread_create ok (t2 s1) NULL (threads s1)) as [[? ?] ?];
          discriminate.
      + destruct (pthread_join (t1 s1) (threads s1)) as [rc|] eqn:Ej;
          [|discriminate].
        injection Hstep as Eh Erc Es2. subst h rc s2.
        destruct (pthread_join_returns _ _ _ Hv1 Ej) as [Hex Hrc].
        destruct (t1 s1) as [i|] eqn:Ht; [|discriminate].
        destruct (Hex i eq_refl) as (w & Hw & Hexw).
        exists i, w. simpl. rewrite Ht. repeat split; auto; lia.
      + destruct (pthread_join (t2 s1) (threads s1)) as [rc|] eqn:Ej;
          [|discriminate].
        injection Hstep as Eh Erc Es2. subst h rc s2.
        destruct (pthread_join_returns _ _ _ Hv2 Ej) as [Hex Hrc].
        destruct (t2 s1) as [i|] eqn:Ht; [|discriminate].
        destruct (Hex i eq_refl) as (w & Hw & Hexw).
        exists i, w. simpl. rewrite Ht. repeat split; auto; lia.
    - apply thread_step_inv in Hstep.
      destruct Hstep as (? & ? & ? & ? & _ & _ & ? & _); discriminate. }
  destruct Hj as (i & w & Hh & Hlk & Hex & Hs2 & Hs1).
  split; [apply (handle_created _ _ _ _ Hr1 Hh)|].
  destruct (exited_thread_events _ _ _ _ Hr1 Hlk Hex) as [r Hr].
  exists i, r. split; [|exact Hr].
  destruct h; simpl in *.
  - rewrite Hk1 by lia. rewrite Hj1 by lia. exact Hh.
  - rewrite Hk2 by lia. rewrite Hj2 by lia. exact Hh.
Qed.

Lemma join_after_exit_witness :
  run lost_update init = Some (lost_update_trace, final 1) /\
  lost_update_trace =
    take 8 lost_update_trace ++ Ev_join T1 0 :: drop 9 lost_update_trace /\
  Ev_create T1 0 ∈ take 8 lost_update_trace /\
  exists i r,
    handle T1 (final 1) = Some i /\
    thread_events i (take 8 lost_update_trace) =
      [Load r; Store (r + 1); Exit NULL].
Proof.
  split; [reflexivity|]. split; [reflexivity|].
  apply (join_after_exit lost_update lost_update_trace (final 1)
           (take 8 lost_update_trace) T1 (drop 9 lost_update_trace));
    reflexivity.
Defined.

Lemma thread_has_handle s i :
  handles_ok s -> (i < length (threads s))%nat ->
  exists h, handle h s = Some i /\
            (match h with T1 => 1 | T2 => 2 end <= stage (pc s))%nat.
Proof.
  intros [Hlen H1 H2 Hs0 Hs1] Hi. rewrite Hlen in Hi.
  assert (Hst1 : is_Some (t1 s) -> (1 <= stage (pc s))%nat).
  { intros [x Hx]. destruct (stage (pc s)) eqn:E; [|lia].
    rewrite Hs0 in Hx by reflexivity. discriminate. }
  assert (Hst2 : is_Some (t2 s) -> (2 <= stage (pc s))%nat).
  { intros [x Hx]. destruct (le_lt_dec 2 (stage (pc s))); [assumption|].
    rewrite Hs1 in Hx by lia. discriminate. }
  destruct H1 as [E1|E1], H2 as [E2|E2]; rewrite ?E1, ?E2 in *;
    simpl in *; try lia.
  - exists T2. assert (i = 0%nat) as -> by lia. simpl. rewrite E2. eauto.
  - exists T1. assert (i = 0%nat) as -> by lia. simpl. rewrite E1. eauto.
  - destruct i as [|[|i]]; [exists T1|exists T2|lia]; simpl;
      rewrite ?E1, ?E2; eauto.
Qed.

(** X5.  A thread acts only after the [pthread_create] that started it
    has succeeded: the events before an action of thread [i] hold a
    successful create on the handle that names [i]. *)
Theorem thread_after_create sched tr s tr1 i we tr2 :
  run sched init = Some (tr, s) -> tr = tr1 ++ Ev_worker i we :: tr2 ->
  exists h, handle h s = Some i /\ Ev_create h 0 ∈ tr1.
Proof.
  intros Hrun ->. apply run_split in Hrun.
  destruct Hrun as (sched1 & c & sched2 & s1 & s2 & -> & H1 & Hstep & H2).
  assert (Hr1 : reachable tr1 s1) by (exists sched1; exact H1).
  destruct (run_handles _ _ _ _ H2) as (_ & Hk1 & Hk2).
  destruct (step_handles _ _ _ _ Hstep) as (Hle & Hj1 & Hj2).
  assert (Hlk : is_Some (threads s1 !! i)).
  { apply step_fn_cases in Hstep as [[ok Hstep]|[j Hstep]].
    - apply main_step_is_main_event in Hstep. discriminate.
    - apply thread_step_inv in Hstep.
      destruct Hstep as (w & we' & ? & ? & Hw & _ & E & _).
      injection E as -> _. eauto. }
  apply lookup_lt_is_Some_1 in Hlk.
  destruct (thread_has_handle _ _ (reachable_handles _ _ Hr1) Hlk)
    as (h & Hh & Hs).
  exists h. split; [|apply (handle_created _ _ _ _ Hr1 Hh)].
  destruct h; simpl in *.
  - rewrite Hk1 by lia. rewrite Hj1 by lia. exact Hh.
  - rewrite Hk2 by lia. rewrite Hj2 by lia. exact Hh.
Qed.

Lemma thread_after_create_witness :
  run lost_update init = Some (lost_update_trace, final 1) /\
  lost_update_trace =
    take 3 lost_update_trace ++ Ev_worker 1 (Load 0)
      :: drop 4 lost_update_trace /\
  exists h, handle h (final 1) = Some 1%nat /\
            Ev_create h 0 ∈ take 3 lost_update_trace.
Proof.
  split; [reflexivity|]. split; [reflexivity|].
  apply (thread_after_create lost_update lost_update_trace (final 1)
           (take 3 lost_update_trace) 1 (Load 0) (drop 4 lost_update_trace));
    reflexivity.
Defined.

Lemma main_step_event_stage ok s e s' :
  main_step ok s = Some (e, s') -> action_index e = Some (stage (pc s)).
Proof.
  intros H. destruct ok; invert_main_step H;
    repeat match goal with H : pc _ = _ |- _ => rewrite H end; reflexivity.
Qed.

(** After both joins a run has events of [main] only. *)
Lemma quiet_after_joins sched tr0 s0 tr s' :
  reachable tr0 s0 -> (4 <= stage (pc s0))%nat ->
  run sched s0 = Some (tr, s') ->
  forall i we, Ev_worker i we ∉ tr.
Proof.
  revert tr0 s0 tr. induction sched as [|c sched IH];
    intros tr0 s0 tr Hr Hs Hrun i we Hin; simpl in Hrun.
  - injection Hrun as <- <-. apply elem_of_nil in Hin. exact Hin.
  - destruct (step_fn c s0) as [[e0 s1]|] eqn:Hstep; [|discriminate].
    destruct (run sched s1) as [[tr1 s1']|] eqn:Hrest; [|discriminate].
    injection Hrun as <- <-.
    pose proof (reachable_step _ _ _ _ _ Hr Hstep) as Hr1.
    destruct (step_handles _ _ _ _ Hstep) as (Hle & _ & _).
    apply elem_of_cons in Hin as [Heq|Hin].
    + subst e0. apply step_fn_cases in Hstep as [[ok Hstep]|[j Hstep]].
      * apply main_step_is_main_event in Hstep. discriminate.
      * rewrite (reachable_threads_done _ _ j Hr Hs) in Hstep. discriminate.
    + apply (IH _ _ _ Hr1 ltac:(lia) Hrest i we Hin).
Qed.

(** X6.  Once [pthread_join(t2, NULL)] has returned, with whatever
    result, no thread acts any more: all loads and stores come before, so
    the read of [shared_data] for the [printf] races with nothing and
    reads the final value. *)
Theorem quiet_after_second_join sched tr s tr1 rc tr2 :
  run sched init = Some (tr, s) -> tr = tr1 ++ Ev_join T2 rc :: tr2 ->
  (forall i we, Ev_worker i we ∉ tr2) /\
  (forall i, thread_events i tr = thread_events i tr1) /\
  (forall v, Ev_read v ∈ tr -> v = shared_data s).
Proof.
  intros Hrun ->.
  assert (Hr : reachable (tr1 ++ Ev_join T2 rc :: tr2) s)
    by (exists sched; exact Hrun).
  apply run_split in Hrun.
  destruct Hrun as (sched1 & c & sched2 & s1 & s2 & -> & H1 & Hstep & H2).
  assert (Hr1 : reachable tr1 s1) by (exists sched1; exact H1).
  pose proof (reachable_step _ _ _ _ _ Hr1 Hstep) as Hr2.
  assert (Hs2 : (4 <= stage (pc s2))%nat).
  { apply step_fn_cases in Hstep as [[ok Hstep]|[j Hstep]].
    - pose proof (main_step_event_stage _ _ _ _ Hstep) as Hi.
      injection Hi as Hi. rewrite (main_step_stage _ _ _ _ Hstep). lia.
    - apply thread_step_inv in Hstep.
      destruct Hstep as (? & ? & ? & ? & _ & _ & ? & _); discriminate. }
  pose proof (quiet_after_joins _ _ _ _ _ Hr2 Hs2 H2) as Hq.
  split; [exact Hq|]. split.
  - intros i.
    assert (Happ : thread_events i (tr1 ++ Ev_join T2 rc :: tr2) =
                   thread_events i tr1 ++ thread_events i tr2).
    { unfold thread_events. rewrite omap_app. reflexivity. }
    assert (Hnil : thread_events i tr2 = []).
    { destruct (thread_events i tr2) as [|we l] eqn:E; [reflexivity|].
      exfalso. apply (Hq i we), thread_events_elem. rewrite E. left. }
    rewrite Happ, Hnil. apply app_nil_r.
  - intros v Hv. apply (main_event_fact _ _ _ Hr) in Hv as [_ ->].
    reflexivity.
Qed.

Lemma quiet_after_second_join_witness :
  run lost_update init = Some (lost_update_trace, final 1) /\
  lost_update_trace =
    take 9 lost_update_trace ++ Ev_join T2 0 :: drop 10 lost_update_trace /\
  (forall i we, Ev_worker i we ∉ drop 10 lost_update_trace) /\
  (forall i, thread_events i lost_update_trace =
             thread_events i (take 9 lost_update_trace)) /\
  (forall v, Ev_read v ∈ lost_update_trace -> v = shared_data (final 1)).
Proof.
  split; [reflexivity|]. split; [reflexivity|].
  apply (quiet_after_second_join lost_update lost_update_trace (final 1)
           (take 9 lost_update_trace) 0 (drop 10 lost_update_trace));
    reflexivity.
Defined.

(** ** Further properties: when the update is lost *)

Lemma load_step c s i v s' :
  step_fn c s = Some (Ev_worker i (Load v), s') ->
  exists w w',
    threads s !! i = Some w /\ w_pc w = W_entry /\ v = shared_data s /\
    w_pc w' = W_loaded v /\
    s' = {| shared_data := shared_data s;
            threads := <[i := w']> (threads s);
            t1 := t1 s; t2 := t2 s; pc := pc s; stdout := stdout s |}.
Proof.
  intros Hstep. apply step_fn_cases in Hstep as [[ok Hstep]|[j Hstep]].
  - apply main_step_is_main_event in Hstep. discriminate.
  - apply thread_step_inv in Hstep.
    destruct Hstep as (w & we & w' & cell & Hlk & Hws & E & -> & _).
    injection E as <- <-. apply worker_step_inv in Hws.
    destruct Hws as [(Hw & E & Hw' & ->)|[(r & _ & E & _)|(_ & E & _)]];
      try discriminate.
    injection E as ->. exists w, w'. auto.
Qed.

(** Every load reads 0 or 1. *)
Lemma reachable_loads tr s :
  reachable tr s -> forall i v, Ev_worker i (Load v) ∈ tr -> v = 0 \/ v = 1.
Proof.
  revert tr s.
  apply (reachable_invariant (fun tr _ => forall i v,
           Ev_worker i (Load v) ∈ tr -> v = 0 \/ v = 1)).
  - intros i v Hin. apply elem_of_nil in Hin. destruct Hin.
  - intros tr s c e s' Hr IH Hstep i v Hin.
    apply elem_of_app in Hin as [Hin|Hin]; [eauto|].
    apply list_elem_of_singleton in Hin. subst e.
    apply load_step in Hstep.
    destruct Hstep as (w & w' & Hlk & Hw & -> & _).
    destruct (reachable_cell _ _ Hr) as [Hlo Hup _ _].
    assert (Hst : stored w = false) by (unfold stored; rewrite Hw; reflexivity).
    pose proof (nstored_lt_length _ _ _ Hlk Hst).
    pose proof (reachable_two_threads _ _ Hr). lia.
Qed.

(** [shared_data] is 2 only if some thread has loaded 1. *)
Lemma reachable_two_loaded_one tr s :
  reachable tr s -> shared_data s = 2 -> loaded_one tr.
Proof.
  revert tr s.
  apply (reachable_invariant (fun tr s => shared_data s = 2 -> loaded_one tr)).
  - discriminate.
  - intros tr s c e s' Hr IH Hstep H2.
    destruct (Z.eq_dec (shared_data s) 2) as [E|Hne].
    { destruct (IH E) as [i Hi]. exists i. apply elem_of_app. auto. }
    apply step_fn_cases in Hstep as [[ok Hstep]|[i Hstep]].
    + exfalso. apply Hne. rewrite <- H2.
      destruct ok; invert_main_step Hstep; reflexivity.
    + apply thread_step_inv in Hstep.
      destruct Hstep as (w & we & w' & cell & Hlk & Hws & -> & -> & _).
      simpl in H2. subst cell. apply worker_step_inv in Hws.
      destruct Hws as [(_ & _ & _ & E)|[(r & Hw & _ & _ & E)|(_ & _ & _ & E)]];
        try (exfalso; apply Hne; congruence).
      pose proof (ck_regs _ (reachable_cell _ _ Hr) _ _ _ Hlk Hw) as Hr0.
      pose proof (reachable_two_threads _ _ Hr).
      pose proof (nstored_le_length (threads s)).
      rewrite incr_int_no_overflow in E by (unfold INT_MIN, INT_MAX; lia).
      assert (r = 1) as -> by lia.
      destruct (reachable_thread_history _ _ Hr i) as (r0 & _ & Hev).
      rewrite Hlk in Hev. unfold thread_history in Hev. rewrite Hw in Hev.
      exists i. apply elem_of_app. left. apply thread_events_elem.
      rewrite Hev. left.
Qed.

Lemma other_stored (tbl : list worker) i w :
  (length tbl <= 2)%nat -> tbl !! i = Some w -> stored w = false ->
  (1 <= nstored tbl)%nat ->
  length tbl = 2%nat /\
  forall j w', j <> i -> tbl !! j = Some w' -> stored w' = true.
Proof.
  intros Hlen Hlk Hw Hns.
  destruct tbl as [|a [|b [|x tbl]]]; simpl in *; try lia.
  - destruct i as [|i]; [|destruct i; discriminate].
    injection Hlk as ->. rewrite Hw in Hns. lia.
  - split; [reflexivity|]. intros j w' Hj Hlk'.
    destruct i as [|[|i]]; try discriminate; injection Hlk as ->;
      rewrite Hw in Hns;
      destruct j as [|[|j]]; try discriminate; try congruence;
      injection Hlk' as ->; destruct (stored w'); [reflexivity|lia
                                                  |reflexivity|lia].
Qed.

Lemma main_step_late ok s e s' :
  main_step ok s = Some (e, s') -> (2 <= stage (pc s))%nat ->
  threads s' = threads s /\ shared_data s' = shared_data s.
Proof.
  intros H Hs. destruct ok; invert_main_step H;
    repeat match goal with H : pc _ = _ |- _ => rewrite H in * end;
    simpl in *; try lia; auto.
Qed.

Lemma two_threads_stage s :
  handles_ok s -> length (threads s) = 2%nat -> (2 <= stage (pc s))%nat.
Proof.
  intros [Hlen _ _ _ Hs1] H2. rewrite H2 in Hlen.
  destruct (le_lt_dec 2 (stage (pc s))) as [|Hlt]; [assumption|].
  rewrite Hs1 in Hlen by lia. destruct (t1 s); simpl in Hlen; lia.
Qed.

Lemma reachable_loaded_one tr s :
  reachable tr s ->
  forall i, Ev_worker i (Load 1) ∈ tr -> loaded_one_ok s i.
Proof.
  revert tr s.
  apply (reachable_invariant (fun tr s => forall i,
           Ev_worker i (Load 1) ∈ tr -> loaded_one_ok s i)).
  - intros i Hin. apply elem_of_nil in Hin. destruct Hin.
  - intros tr s c e s' Hr IH Hstep i Hin.
    apply elem_of_app in Hin as [Hin|Hin].
    + destruct (IH i Hin) as (w & Hlk & Hcase & Hlen & Hothers).
      apply step_fn_cases in Hstep as [[ok Hstep]|[j Hstep]].
      * pose proof (two_threads_stage _ (reachable_handles _ _ Hr) Hlen) as Hs.
        destruct (main_step_late _ _ _ _ Hstep Hs) as [Ht Hc].
        exists w. rewrite Ht, Hc. auto.
      * apply thread_step_inv in Hstep.
        destruct Hstep as (wj & we & wj' & cell & Hlkj & Hws & -> & -> & _).
        unfold loaded_one_ok. simpl. rewrite length_insert.
        apply worker_step_inv in Hws.
        destruct (decide (j = i)) as [->|Hne].
        -- rewrite Hlk in Hlkj. injection Hlkj as <-.
           exists wj'. split.
           { apply list_lookup_insert_eq. eapply lookup_lt_Some; eauto. }
           split; [|split; [exact Hlen|]].
           2: { intros j w' Hj Hlk'.
                rewrite list_lookup_insert_ne in Hlk' by congruence. eauto. }
           unfold stored in *.
           destruct Hws as [(Hw & _)|[(r & Hw & _ & Hw' & ->)|(Hw & _ & Hw' & ->)]];
             destruct Hcase as [[Hp Hc]|[Hp Hc]]; rewrite Hw in Hp;
             try discriminate; rewrite Hw'.
           ++ injection Hp as ->. right. split; reflexivity.
           ++ right. auto.
        -- assert (Hst : stored wj = true) by (eapply Hothers; eauto).
           unfold stored in Hst.
           destruct Hws as [(Hw & _)|[(r & Hw & _)|(Hw & _ & Hw' & ->)]];
             rewrite Hw in Hst; try discriminate.
           exists w. split.
           { rewrite list_lookup_insert_ne by congruence. exact Hlk. }
           split; [exact Hcase|]. split; [exact Hlen|].
           intros j' w' Hj' Hlk'. apply list_lookup_insert_Some in Hlk'.
           destruct Hlk' as [(_ & <- & _)|[_ Hlk']]; [|eauto].
           unfold stored. rewrite Hw'. reflexivity.
    + apply list_elem_of_singleton in Hin. subst e.
      apply load_step in Hstep.
      destruct Hstep as (w & w' & Hlk & Hw & Hc & Hw' & ->).
      destruct (reachable_cell _ _ Hr) as [_ Hup _ _].
      assert (Hst : stored w = false) by (unfold stored; rewrite Hw; reflexivity).
      destruct (other_stored _ _ _ (reachable_two_threads _ _ Hr) Hlk Hst
                  ltac:(lia)) as [Hlen Hothers].
      exists w'. simpl. rewrite length_insert. split.
      { apply list_lookup_insert_eq. eapply lookup_lt_Some; eauto. }
      split; [left; auto|]. split; [exact Hlen|].
      intros j wj Hj Hlkj. rewrite list_lookup_insert_ne in Hlkj by congruence.
      eauto.
Qed.

(** X2.  When the update is lost.  In a run in which both workers are
    spawned and joined, [shared_data] ends at 2 exactly when some thread
    loaded 1, that is, loaded after the other had stored, and ends at 1
    exactly when every load read 0, that is, when both threads loaded
    before either stored.  The value printed is that final value. *)
Theorem lost_update_iff sched tr s :
  run sched init = Some (tr, s) -> normal_run tr ->
  (shared_data s = 2 <-> loaded_one tr) /\
  (shared_data s = 1 <-> forall i v, Ev_worker i (Load v) ∈ tr -> v = 0) /\
  (forall v, Ev_printf v ∈ tr -> v = shared_data s).
Proof.
  intros Hrun Hn. assert (Hr : reachable tr s) by (exists sched; exact Hrun).
  destruct (normal_run_state _ _ Hr Hn) as (Hs & _ & Hc).
  assert (H2 : shared_data s = 2 <-> loaded_one tr).
  { split; [apply (reachable_two_loaded_one _ _ Hr)|].
    intros [i Hi].
    destruct (reachable_loaded_one _ _ Hr i Hi) as (w & Hlk & Hcase & _).
    pose proof (reachable_all_exited _ _ Hr Hs _ _ Hlk) as Hex.
    unfold exited in Hex.
    destruct Hcase as [[Hp _]|[_ E]]; [|exact E].
    rewrite Hp in Hex. discriminate. }
  split; [exact H2|]. split.
  - split.
    + intros H1 i v Hin.
      destruct (reachable_loads _ _ Hr _ _ Hin) as [->| ->]; [reflexivity|].
      assert (shared_data s = 2) by (apply H2; exists i; exact Hin). lia.
    + intros Hall.
      destruct (Z.eq_dec (shared_data s) 2) as [E|Hne]; [|lia].
      apply H2 in E as [i Hi]. specialize (Hall _ _ Hi). discriminate.
  - intros v Hv. apply (main_event_fact _ _ _ Hr) in Hv as [_ ->].
    reflexivity.
Qed.

Lemma lost_update_iff_witness :
  run serial init = Some (serial_trace, final 2) /\
  normal_run serial_trace /\
  loaded_one serial_trace /\
  (shared_data (final 2) = 2 <-> loaded_one serial_trace) /\
  (shared_data (final 2) = 1 <->
   forall i v, Ev_worker i (Load v) ∈ serial_trace -> v = 0) /\
  (forall v, Ev_printf v ∈ serial_trace -> v = shared_data (final 2)).
Proof.
  split; [reflexivity|]. split; [compute_done|].
  split; [exists 1%nat; compute_done|].
  apply (lost_update_iff serial serial_trace (final 2));
    [reflexivity | compute_done].
Defined.

(** ** Refused spawns, termination *)



Lemma reachable_unrefused tr s :
  reachable tr s -> ~ failed_run tr -> unrefused s.
Proof.
  intros Hr Hnf.
  assert (Hc : forall h, Ev_create h (create_rc (handle h s)) ∈ tr ->
                         is_Some (handle h s)).
  { intros h Hin. destruct (handle h s) as [i|] eqn:Hh; [eauto|].
    exfalso. apply Hnf. exists h, EAGAIN. split; [discriminate|]. auto. }
  split; intros Hs.
  - apply (Hc T1), (main_history_in_trace _ _ _ Hr).
    unfold main_history, main_actions.
    destruct (pc s); simpl in *; try lia; apply list_elem_of_In; simpl; tauto.
  - apply (Hc T2), (main_history_in_trace _ _ _ Hr).
    unfold main_history, main_actions.
    destruct (pc s); simpl in *; try lia; apply list_elem_of_In; simpl; tauto.
Qed.

(** With no spawn refused so far some action is enabled that refuses
    none, as long as [main] has not returned. *)
Lemma progress_unrefused s :
  unrefused s -> (stage (pc s) < 7)%nat ->
  exists c e s', step_fn c s = Some (e, s') /\ unrefused s'.
Proof.
  intros [U1 U2] Hs.
  destruct (progress s Hs) as (c & e & s' & Hstep).
  { intros Hpc. apply U1. rewrite Hpc. simpl. lia. }
  { intros Hpc. apply U2. rewrite Hpc. simpl. lia. }
  destruct (pc s) eqn:Hpc; simpl in *; try lia.
  1, 2: exists Run_main; unfold step_fn, main_step; rewrite Hpc; simpl;
    do 2 eexists; split; [reflexivity|]; split; simpl; intros; eauto; lia.
  all: exists c, e, s'; split; [exact Hstep|].
  all: destruct (step_handles _ _ _ _ Hstep) as (Hle & Hk1 & Hk2).
  all: rewrite Hpc in *; simpl in *.
  all: split; intros _; [rewrite Hk1 by lia; apply U1; lia
                        |rewrite Hk2 by lia; apply U2; lia].
Qed.

(** From a state in which no spawn has been refused the program can be
    run on until [main] has returned. *)
Lemma run_to_exit s :
  unrefused s ->
  exists sched tr s' st, run sched s = Some (tr, s') /\ pc s' = M_exited st.
Proof.
  remember (remaining s) as n eqn:Hn. revert s Hn.
  induction n as [n IH] using lt_wf_ind. intros s -> Hu.
  destruct (le_lt_dec 7 (stage (pc s))) as [Hge|Hlt].
  - exists [], [], s. destruct (pc s) eqn:Hpc; simpl in Hge; try lia. eauto.
  - destruct (progress_unrefused s Hu Hlt) as (c & e & s1 & Hstep & Hu1).
    destruct (IH _ (step_remaining _ _ _ _ Hstep) s1 eq_refl Hu1)
      as (sched & tr & s' & st & Hrun & Hpc).
    exists (c :: sched), (e :: tr), s', st. simpl. rewrite Hstep, Hrun. auto.
Qed.

(** C4.  [main] returns 0 on every path: whenever the process has
    terminated its exit status is 0, and a return of [main] is a return of
    0.  A run has at most 13 steps.  A run in which no spawn or join has
    failed does terminate: if no step is enabled [main] has returned 0,
    and the run can be continued until it has. *)
Theorem exit_status_zero sched tr s :
  run sched init = Some (tr, s) ->
  (forall st, pc s = M_exited st -> st = 0) /\
  (forall st, Ev_return st ∈ tr -> st = 0) /\
  (length sched <= 13)%nat /\
  (~ failed_run tr ->
   ((forall c, step_fn c s = None) -> pc s = M_exited 0) /\
   (exists sched' tr' s',
       run (sched ++ sched') init = Some (tr ++ tr', s') /\
       pc s' = M_exited 0)).
Proof.
  intros Hrun. assert (Hr : reachable tr s) by (exists sched; exact Hrun).
  split; [|split; [|split]].
  - intros st. apply (reachable_exit_status _ _ _ Hr).
  - intros st Hst. apply (main_event_fact _ _ _ Hr) in Hst as [_ ->].
    reflexivity.
  - destruct (run_remaining _ _ _ _ Hrun) as [Hlen _].
    change (remaining init) with 13%nat in Hlen. lia.
  - intros Hnf. pose proof (reachable_unrefused _ _ Hr Hnf) as Hu. split.
    + intros Hstuck.
      destruct (le_lt_dec 7 (stage (pc s))) as [Hge|Hlt].
      * destruct (pc s) eqn:Hpc; simpl in Hge; try lia.
        f_equal. apply (reachable_exit_status _ _ _ Hr Hpc).
      * destruct (progress_unrefused s Hu Hlt) as (c & e & s' & Hstep & _).
        rewrite Hstuck in Hstep. discriminate.
    + destruct (run_to_exit s Hu) as (sched' & tr' & s' & st & Hrun' & Hpc).
      pose proof (run_app _ _ _ _ _ _ _ Hrun Hrun') as Hall.
      exists sched', tr', s'. split; [exact Hall|].
      rewrite Hpc. f_equal.
      apply (reachable_exit_status (tr ++ tr') s'); [|exact Hpc].
      exists (sched ++ sched'). exact Hall.
Qed.

Lemma normal_run_not_failed tr s :
  reachable tr s -> normal_run tr -> ~ failed_run tr.
Proof.
  intros Hr [[Hc1 Hc2] _] (h & rc & Hrc & Hin).
  apply (main_event_fact _ _ _ Hr) in Hc1 as [_ Hc1].
  apply (main_event_fact _ _ _ Hr) in Hc2 as [_ Hc2].
  destruct Hin as [Hin|Hin]; apply (main_event_fact _ _ _ Hr) in Hin;
    destruct h, Hin as [_ ->]; apply Hrc;
    destruct (t1 s), (t2 s); try discriminate; reflexivity.
Qed.

Lemma exit_status_zero_witness :
  run serial init = Some (serial_trace, final 2) /\
  ~ failed_run serial_trace /\
  (forall st, pc (final 2) = M_exited st -> st = 0) /\
  (forall st, Ev_return st ∈ serial_trace -> st = 0) /\
  (length serial <= 13)%nat /\
  (~ failed_run serial_trace ->
   ((forall c, step_fn c (final 2) = None) -> pc (final 2) = M_exited 0) /\
   (exists sched' tr' s',
       run (serial ++ sched') init = Some (serial_trace ++ tr', s') /\
       pc s' = M_exited 0)).
Proof.
  split; [reflexivity|]. split.
  { apply (normal_run_not_failed serial_trace (final 2));
      [exists serial; reflexivity | compute_done]. }
  apply (exit_status_zero serial serial_trace (final 2)). reflexivity.
Defined.






(** ** The Driver with any number of Workers *)

Lemma table_ok_spawn cell tbl arg :
  table_ok cell tbl ->
  table_ok cell (tbl ++ [{| w_arg := arg; w_pc := W_entry |}]).
Proof.
  intros (Hc & Hpos & Hregs). unfold table_ok.
  rewrite nstored_app. simpl. rewrite Nat.add_0_r.
  split; [exact Hc|]. split; [exact Hpos|].
  intros i w r Hlk Hw. apply lookup_app_Some in Hlk as [Hlk|[_ Hlk]]; [eauto|].
  apply list_lookup_singleton_Some in Hlk as [_ <-]. discriminate.
Qed.

Lemma table_ok_step cell (tbl : list worker) i w e w' cell' :
  table_ok cell tbl -> Z.of_nat (length tbl) <= INT_MAX ->
  tbl !! i = Some w -> worker_step w cell = Some (e, w', cell') ->
  table_ok cell' (<[i := w']> tbl).
Proof.
  intros (Hc & Hpos & Hregs) Hmax Hlk Hws. unfold table_ok.
  pose proof (nstored_insert _ _ _ w' Hlk) as Hins.
  pose proof (nstored_le_length tbl) as Hns.
  assert (Hother : forall j w0 r,
             <[i := w']> tbl !! j = Some w0 -> w_pc w0 = W_loaded r ->
             (j = i /\ w0 = w') \/ 0 <= r <= Z.of_nat (nstored tbl)).
  { intros j w0 r Hj Hpc. apply list_lookup_insert_Some in Hj.
    destruct Hj as [(-> & -> & _)|[_ Hj]]; eauto. }
  apply worker_step_inv in Hws. unfold stored in Hins.
  destruct Hws as [(Hw & _ & Hw' & ->)|[(r & Hw & _ & Hw' & ->)|(Hw & _ & Hw' & ->)]];
    rewrite Hw, Hw' in Hins.
  - split; [lia|]. split; [lia|]. intros j w0 r Hj Hpc.
    destruct (Hother j w0 r Hj Hpc) as [[_ ->]|H]; [|lia].
    rewrite Hw' in Hpc. injection Hpc as <-. lia.
  - destruct (Hregs _ _ _ Hlk Hw) as [Hr0 Hr1].
    assert (Hst : stored w = false) by (unfold stored; rewrite Hw; reflexivity).
    pose proof (nstored_lt_length _ _ _ Hlk Hst) as Hlt.
    rewrite incr_int_no_overflow by (unfold INT_MIN, INT_MAX in *; lia).
    split; [lia|]. split; [lia|]. intros j w0 r0 Hj Hpc.
    destruct (Hother j w0 r0 Hj Hpc) as [[_ ->]|H]; [|lia].
    rewrite Hw' in Hpc. discriminate.
  - split; [lia|]. split; [lia|]. intros j w0 r Hj Hpc.
    destruct (Hother j w0 r Hj Hpc) as [[_ ->]|H]; [|lia].
    rewrite Hw' in Hpc. discriminate.
Qed.

Lemma driver_thread_step_inv i s s' :
  driver_thread_step i s = Some s' ->
  exists w we w' cell,
    d_threads s !! i = Some w /\
    worker_step w (d_shared_data s) = Some (we, w', cell) /\
    s' = {| d_shared_data := cell; d_threads := <[i := w']> (d_threads s);
            d_pc := d_pc s; d_stdout := d_stdout s |} /\
    (forall st, d_pc s <> D_exited st).
Proof.
  unfold driver_thread_step. intros H.
  assert (Hpc : forall st, d_pc s <> D_exited st).
  { intros st E. rewrite E in H. discriminate. }
  assert (H' : match d_threads s !! i with
               | Some w =>
                   match worker_step w (d_shared_data s) with
                   | Some (_, w', cell) =>
                       Some {| d_shared_data := cell;
                               d_threads := <[i := w']> (d_threads s);
                               d_pc := d_pc s; d_stdout := d_stdout s |}
                   | None => None
                   end
               | None => None
               end = Some s').
  { destruct (d_pc s); try exact H; discriminate. }
  clear H. destruct (d_threads s !! i) as [w|]; [|discriminate].
  destruct (worker_step w (d_shared_data s)) as [[[we w'] cell]|] eqn:Ew;
    [|discriminate].
  injection H' as <-. exists w, we, w', cell. auto.
Qed.

Lemma exited_below_insert k (tbl : list worker) i w w' :
  tbl !! i = Some w -> exited w = false ->
  exited_below k tbl -> exited_below k (<[i := w']> tbl) /\ (k <= i)%nat.
Proof.
  intros Hlk Hw Hk.
  assert (Hi : (k <= i)%nat).
  { destruct (le_lt_dec k i); [assumption|].
    rewrite (Hk i w ltac:(lia) Hlk) in Hw. discriminate. }
  split; [|exact Hi]. intros j w0 Hj Hlk0.
  rewrite list_lookup_insert_ne in Hlk0 by lia. eauto.
Qed.

Lemma driver_ok_init n : driver_ok n (driver_init n).
Proof.
  split; simpl.
  - unfold table_ok. simpl. split; [lia|]. split; [lia|].
    intros i w r Hlk. discriminate.
  - unfold spawn_or_next, join_or_next.
    destruct (0 <? n)%nat eqn:E.
    + apply Nat.ltb_lt in E. auto.
    + apply Nat.ltb_ge in E. split; [lia|]. intros i w Hi. lia.
  - unfold spawn_or_next, join_or_next.
    destruct (0 <? n)%nat; intros v; discriminate.
  - unfold spawn_or_next, join_or_next. destruct (0 <? n)%nat; reflexivity.
  - unfold spawn_or_next, join_or_next.
    destruct (0 <? n)%nat; intros v; discriminate.
Qed.

Lemma driver_ok_length n s :
  driver_ok n s -> (length (d_threads s) <= n)%nat.
Proof.
  intros [_ Hpc _ _ _]. destruct (d_pc s); intuition lia.
Qed.

(** After the joins all [n] threads have returned. *)
Lemma driver_ok_joined n s :
  driver_ok n s ->
  (forall k, d_pc s <> D_spawn k) -> (forall k, d_pc s <> D_join k) ->
  length (d_threads s) = n /\ exited_below n (d_threads s).
Proof.
  intros [_ Hpc _ _ _] Hs Hj. destruct (d_pc s) as [k|k| | | |];
    try exact Hpc; [destruct (Hs k eq_refl)|destruct (Hj k eq_refl)].
Qed.

Lemma driver_ok_step n c s s' :
  Z.of_nat n <= INT_MAX -> driver_ok n s ->
  driver_step n c s = Some s' -> driver_ok n s'.
Proof.
  intros Hmax Hok Hstep. pose proof (driver_ok_length _ _ Hok) as Hlen.
  destruct c as [| |i]; simpl in Hstep; [|discriminate|].
  - destruct Hok as [Htbl Hpc Hpf Hout Hst].
    unfold driver_main_step in Hstep.
    destruct (d_pc s) as [k|k| |v| |st] eqn:Epc.
    + simpl in Hstep. injection Hstep as <-. destruct Hpc as [Hk Hkn].
      unfold spawn_or_next, join_or_next.
      split; simpl; rewrite ?length_app; simpl.
      * apply table_ok_spawn. exact Htbl.
      * destruct (S k <? n)%nat eqn:E1.
        { apply Nat.ltb_lt in E1. split; lia. }
        apply Nat.ltb_ge in E1. destruct (0 <? n)%nat eqn:E0.
        { split; [lia|]. split; [lia|]. intros j w Hj. lia. }
        apply Nat.ltb_ge in E0. lia.
      * destruct (S k <? n)%nat; [|destruct (0 <? n)%nat];
          intros v; discriminate.
      * rewrite Hout.
        destruct (S k <? n)%nat; [|destruct (0 <? n)%nat]; reflexivity.
      * destruct (S k <? n)%nat; [|destruct (0 <? n)%nat];
          intros v; discriminate.
    + destruct (pthread_join (Some k) (d_threads s)) as [rc|] eqn:Ej;
        [|discriminate].
      injection Hstep as <-. destruct Hpc as (Hl & Hkn & Hbelow).
      assert (Hbelow' : exited_below (S k) (d_threads s)).
      { intros j w Hj Hlk. destruct (decide (j = k)) as [->|Hne].
        - unfold pthread_join in Ej. rewrite Hlk in Ej.
          destruct (exited w); [reflexivity|discriminate].
        - apply (Hbelow j w); [lia|exact Hlk]. }
      unfold join_or_next. split; simpl.
      * exact Htbl.
      * destruct (S k <? n)%nat eqn:E1.
        { apply Nat.ltb_lt in E1. auto. }
        apply Nat.ltb_ge in E1. split; [exact Hl|].
        intros j w Hj. apply Hbelow'. lia.
      * destruct (S k <? n)%nat; intros v; discriminate.
      * rewrite Hout. destruct (S k <? n)%nat; reflexivity.
      * destruct (S k <? n)%nat; intros v; discriminate.
    + injection Hstep as <-. split; simpl; auto.
      * intros v [= <-]. reflexivity.
      * discriminate.
    + injection Hstep as <-. split; simpl; auto.
      * discriminate.
      * rewrite Hout, (Hpf v eq_refl). reflexivity.
      * discriminate.
    + injection Hstep as <-. split; simpl; auto.
      * discriminate.
      * intros st [= <-]. reflexivity.
    + discriminate.
  - apply driver_thread_step_inv in Hstep.
    destruct Hstep as (w & we & w' & cell & Hlk & Hws & -> & Hne).
    pose proof (worker_step_not_exited _ _ _ Hws) as Hex.
    assert (Hlate : (forall k, d_pc s <> D_spawn k) ->
                    (forall k, d_pc s <> D_join k) -> False).
    { intros Hs Hj. destruct (driver_ok_joined _ _ Hok Hs Hj) as [Hl Hb].
      apply lookup_lt_Some in Hlk as Hi. rewrite Hl in Hi.
      rewrite (Hb i w Hi Hlk) in Hex. discriminate. }
    destruct Hok as [Htbl Hpc Hpf Hout Hst]. split; simpl.
    + apply (table_ok_step _ _ _ _ _ _ _ Htbl ltac:(lia) Hlk Hws).
    + rewrite length_insert.
      destruct (d_pc s) as [k|k| |v| |st];
        try (exfalso; apply Hlate; intros; discriminate).
      * exact Hpc.
      * destruct Hpc as (Hl & Hkn & Hb). split; [exact Hl|].
        split; [exact Hkn|].
        apply (exited_below_insert _ _ _ _ _ Hlk Hex Hb).
    + intros v Hv. exfalso. apply Hlate; intros k; rewrite Hv; discriminate.
    + rewrite Hout.
      destruct (d_pc s); try reflexivity;
        exfalso; apply Hlate; intros; discriminate.
    + exact Hst.
Qed.

Lemma driver_ok_run n sched s s' :
  Z.of_nat n <= INT_MAX -> driver_ok n s ->
  driver_run n sched s = Some s' -> driver_ok n s'.
Proof.
  intros Hmax. revert s. induction sched as [|c sched IH]; intros s Hok Hrun;
    simpl in Hrun.
  - injection Hrun as <-. exact Hok.
  - destruct (driver_step n c s) as [s1|] eqn:Hstep; [|discriminate].
    apply (IH s1); [|exact Hrun]. apply (driver_ok_step _ _ _ _ Hmax Hok Hstep).
Qed.

(** Once the joins are done the Cell holds at most [n], and at least 1 if
    there is a Worker at all. *)
Lemma driver_ok_cell n s :
  driver_ok n s ->
  (forall k, d_pc s <> D_spawn k) -> (forall k, d_pc s <> D_join k) ->
  0 <= d_shared_data s <= Z.of_nat n /\
  ((0 < n)%nat -> 1 <= d_shared_data s).
Proof.
  intros Hok Hs Hj. destruct (driver_ok_joined _ _ Hok Hs Hj) as [Hl Hb].
  destruct (dk_table _ _ Hok) as (Hc & Hpos & _).
  rewrite nstored_all_exited in Hc, Hpos.
  - rewrite Hl in Hc, Hpos. auto.
  - intros i w Hlk. apply (Hb i w); [|exact Hlk].
    apply lookup_lt_Some in Hlk. lia.
  - intros i w Hlk. apply (Hb i w); [|exact Hlk].
    apply lookup_lt_Some in Hlk. lia.
Qed.

Lemma driver_progress n s :
  driver_ok n s -> (forall st, d_pc s <> D_exited st) ->
  exists c s', driver_step n c s = Some s'.
Proof.
  intros Hok Hne. destruct (d_pc s) as [k|k| |v| |st] eqn:Epc.
  1, 3, 4, 5: exists Run_main; unfold driver_step, driver_main_step;
    rewrite Epc; simpl; eauto.
  - destruct (pthread_join (Some k) (d_threads s)) as [rc|] eqn:Ej.
    + exists Run_main. unfold driver_step, driver_main_step.
      rewrite Epc, Ej. eauto.
    + unfold pthread_join in Ej.
      destruct (d_threads s !! k) as [w|] eqn:Hlk; [|discriminate].
      destruct (exited w) eqn:Hex; [discriminate|].
      destruct (worker_step_enabled w (d_shared_data s) Hex)
        as [[[we w'] c] Hw].
      exists (Run_thread k). unfold driver_step, driver_thread_step.
      rewrite Epc, Hlk, Hw. eauto.
  - destruct (Hne st eq_refl).
Qed.

Lemma driver_step_remaining n c s s' :
  driver_ok n s -> driver_step n c s = Some s' ->
  (driver_remaining n s' < driver_remaining n s)%nat.
Proof.
  intros Hok Hstep. unfold driver_remaining.
  destruct c as [| |i]; simpl in Hstep; [|discriminate|].
  - destruct Hok as [_ Hpc _ _ _]. unfold driver_main_step in Hstep.
    destruct (d_pc s) as [k|k| |v| |st] eqn:Epc.
    + simpl in Hstep. injection Hstep as <-. simpl.
      rewrite threads_todo_app. simpl.
      unfold spawn_or_next, join_or_next.
      destruct (S k <? n)%nat eqn:E1.
      { apply Nat.ltb_lt in E1. lia. }
      apply Nat.ltb_ge in E1. destruct (0 <? n)%nat; lia.
    + destruct (pthread_join (Some k) (d_threads s)); [|discriminate].
      injection Hstep as <-. simpl. unfold join_or_next.
      destruct (S k <? n)%nat eqn:E1; [apply Nat.ltb_lt in E1|]; lia.
    + injection Hstep as <-. simpl. lia.
    + injection Hstep as <-. simpl. lia.
    + injection Hstep as <-. simpl. lia.
    + discriminate.
  - apply driver_thread_step_inv in Hstep.
    destruct Hstep as (w & we & w' & cell & Hlk & Hws & -> & _). simpl.
    pose proof (threads_todo_insert _ _ _ w' Hlk).
    apply worker_step_todo in Hws. lia.
Qed.

(** Every run of the Driver can be continued until it has returned. *)
Lemma driver_to_exit n s :
  Z.of_nat n <= INT_MAX -> driver_ok n s ->
  exists sched s' st, driver_run n sched s = Some s' /\ d_pc s' = D_exited st.
Proof.
  intros Hmax. remember (driver_remaining n s) as m eqn:Hm. revert s Hm.
  induction m as [m IH] using lt_wf_ind. intros s -> Hok.
  destruct (d_pc s) as [k|k| |v| |st] eqn:Epc.
  6: { exists [], s, st. auto. }
  all: destruct (driver_progress n s Hok) as (c & s1 & Hstep);
    [intros st; rewrite Epc; discriminate|].
  all: destruct (IH _ (driver_step_remaining _ _ _ _ Hok Hstep) s1 eq_refl
                   (driver_ok_step _ _ _ _ Hmax Hok Hstep))
    as (sched & s' & st & Hrun & Hpc).
  all: exists (c :: sched), s', st; simpl; rewrite Hstep; auto.
Qed.

Lemma driver_run_app n sched1 sched2 s s1 s2 :
  driver_run n sched1 s = Some s1 -> driver_run n sched2 s1 = Some s2 ->
  driver_run n (sched1 ++ sched2) s = Some s2.
Proof.
  revert s. induction sched1 as [|c sched1 IH]; intros s H1 H2; simpl in *.
  - injection H1 as <-. exact H2.
  - destruct (driver_step n c s) as [s0|]; [|discriminate]. eauto.
Qed.

(** The Driver with two Workers is [main]: a step of the one is that step
    of the other. *)
Lemma driver_two_step c s s' :
  driver_ok 2 s -> driver_step 2 c s = Some s' ->
  exists e, step_fn c (main_state s) = Some (e, main_state s').
Proof.
  intros [_ Hpc _ _ _] Hstep.
  destruct c as [| |i]; simpl in Hstep; [|discriminate|].
  - unfold driver_main_step in Hstep. unfold step_fn, main_step, main_state.
    destruct (d_pc s) as [k|k| |v| |st] eqn:Epc; simpl in *.
    + injection Hstep as <-. destruct Hpc as [Hl Hk]. simpl.
      destruct k as [|[|k]]; [| |lia]; rewrite Hl; simpl; eauto.
    + destruct Hpc as (Hl & Hk & _).
      destruct k as [|[|k]]; [| |lia]; unfold pthread_join in *;
        (destruct (d_threads s !! _) as [w|]; [destruct (exited w)|]);
        try discriminate; injection Hstep as <-; simpl; eauto.
    + injection Hstep as <-. simpl. eauto.
    + injection Hstep as <-. simpl. eauto.
    + injection Hstep as <-. simpl. eauto.
    + discriminate.
  - apply driver_thread_step_inv in Hstep.
    destruct Hstep as (w & we & w' & cell & Hlk & Hws & -> & Hne).
    exists (Ev_worker i we). unfold step_fn, thread_step, main_state. simpl.
    rewrite Hlk, Hws.
    destruct (d_pc s) as [[|k]|[|k]| |v| |st]; try reflexivity.
    destruct (Hne st eq_refl).
Qed.

Lemma driver_two_run sched s s' :
  driver_ok 2 s -> driver_run 2 sched s = Some s' ->
  exists tr, run sched (main_state s) = Some (tr, main_state s').
Proof.
  revert s. induction sched as [|c sched IH]; intros s Hok Hrun;
    simpl in Hrun.
  - injection Hrun as <-. exists []. reflexivity.
  - destruct (driver_step 2 c s) as [s1|] eqn:Hstep; [|discriminate].
    destruct (driver_two_step _ _ _ Hok Hstep) as [e He].
    assert (Hok1 : driver_ok 2 s1).
    { apply (driver_ok_step 2 c s); [unfold INT_MAX; lia|exact Hok|exact Hstep]. }
    destruct (IH _ Hok1 Hrun) as [tr Htr].
    exists (e :: tr). simpl. rewrite He, Htr. reflexivity.
Qed.

Lemma driver_ok_control n s :
  (n <= 1)%nat -> driver_ok n s ->
  (forall k, d_pc s <> D_spawn k) -> (forall k, d_pc s <> D_join k) ->
  d_shared_data s = Z.of_nat n.
Proof.
  intros Hn Hok Hs Hj. destruct (driver_ok_cell _ _ Hok Hs Hj) as [Hc Hpos].
  destruct n as [|[|n]]; [simpl in *; lia| |lia].
  specialize (Hpos ltac:(lia)). simpl in *. lia.
Qed.

(** C8.  The controls, on the Driver with [n] Workers for [n] one or
    zero.  With exactly one Worker the value read and emitted is always 1,
    with no Worker always 0, whatever the schedule: standard output is
    empty until the emission and then holds that value and a newline, the
    Driver returns 0, and every run can be continued until it has emitted
    and returned.  One application of [thread_function] to the initial
    value of the Cell gives 1.  With two Workers the Driver is [main]. *)
Theorem boundary_controls n sched s :
  (n <= 1)%nat -> driver_run n sched (driver_init n) = Some s ->
  (forall v, d_pc s = D_printf v -> v = Z.of_nat n) /\
  (d_stdout s = EmptyString \/ d_stdout s = printf_d_nl (Z.of_nat n)) /\
  (forall st, d_pc s = D_exited st ->
              st = 0 /\ d_stdout s = printf_d_nl (Z.of_nat n)) /\
  (exists sched' s',
      driver_run n (sched ++ sched') (driver_init n) = Some s' /\
      d_pc s' = D_exited 0 /\ d_stdout s' = printf_d_nl (Z.of_nat n)) /\
  (forall arg, thread_function arg (d_shared_data (driver_init n)) = (NULL, 1)) /\
  (forall sched2 s2,
      driver_run 2 sched2 (driver_init 2) = Some s2 ->
      exists tr, run sched2 init = Some (tr, main_state s2)).
Proof.
  intros Hn Hrun.
  assert (Hmax : Z.of_nat n <= INT_MAX) by (unfold INT_MAX; lia).
  pose proof (driver_ok_run _ _ _ _ Hmax (driver_ok_init n) Hrun) as Hok.
  assert (Hexit : forall s0 st, driver_ok n s0 -> d_pc s0 = D_exited st ->
                    st = 0 /\ d_stdout s0 = printf_d_nl (Z.of_nat n)).
  { intros s0 st Hok0 Hpc. split; [apply (dk_status _ _ Hok0 _ Hpc)|].
    rewrite (dk_stdout _ _ Hok0), Hpc.
    rewrite (driver_ok_control n s0 Hn Hok0);
      [reflexivity| |]; intros k; rewrite Hpc; discriminate. }
  split; [|split; [|split; [|split; [|split]]]].
  - intros v Hv. rewrite (dk_printf _ _ Hok _ Hv).
    apply (driver_ok_control n s Hn Hok); intros k; rewrite Hv; discriminate.
  - rewrite (dk_stdout _ _ Hok).
    destruct (d_pc s) eqn:Epc; auto; right;
      rewrite (driver_ok_control n s Hn Hok);
      try reflexivity; intros k; rewrite Epc; discriminate.
  - intros st. apply (Hexit s st Hok).
  - destruct (driver_to_exit n s Hmax Hok) as (sched' & s' & st & Hrun' & Hpc).
    pose proof (driver_run_app _ _ _ _ _ _ Hrun Hrun') as Hall.
    pose proof (driver_ok_run _ _ _ _ Hmax (driver_ok_init n) Hall) as Hok'.
    destruct (Hexit s' st Hok' Hpc) as [-> Hout].
    exists sched', s'. auto.
  - intros arg. reflexivity.
  - intros sched2 s2 Hrun2.
    apply (driver_two_run sched2 (driver_init 2) s2 (driver_ok_init 2) Hrun2).
Qed.

Lemma boundary_controls_witness :
  (driver_run 1 [Run_main; Run_thread 0; Run_thread 0; Run_thread 0;
                 Run_main; Run_main; Run_main; Run_main] (driver_init 1) =
     Some {| d_shared_data := 1; d_threads := [returned];
             d_pc := D_exited 0; d_stdout := ("1" ++ newline)%string |} /\
   (0 = 0 /\ ("1" ++ newline)%string = printf_d_nl (Z.of_nat 1))) /\
  (driver_run 0 [Run_main; Run_main; Run_main] (driver_init 0) =
     Some {| d_shared_data := 0; d_threads := [];
             d_pc := D_exited 0; d_stdout := ("0" ++ newline)%string |} /\
   (0 = 0 /\ ("0" ++ newline)%string = printf_d_nl (Z.of_nat 0))).
Proof.
  split.
  - split; [reflexivity|].
    exact (proj1 (proj2 (proj2
             (boundary_controls 1
                [Run_main; Run_thread 0; Run_thread 0; Run_thread 0;
                 Run_main; Run_main; Run_main; Run_main]
                {| d_shared_data := 1; d_threads := [returned];
                   d_pc := D_exited 0;
                   d_stdout := ("1" ++ newline)%string |}
                (le_n 1) eq_refl))) 0 eq_refl).
  - split; [reflexivity|].
    exact (proj1 (proj2 (proj2
             (boundary_controls 0 [Run_main; Run_main; Run_main]
                {| d_shared_data := 0; d_threads := [];
                   d_pc := D_exited 0;
                   d_stdout := ("0" ++ newline)%string |}
                (le_S 0 0 (le_n 0)) eq_refl))) 0 eq_refl).
Defined.
